(** * Motion detection by frame differencing: the notebook's capture loop

    The notebook [Motion_Tracking_opencv.ipynb] reads frames from a camera,
    takes the absolute difference of two consecutive frames, reduces it to
    grey, blurs, thresholds and dilates it, extracts contours, and outlines
    every contour whose area is at least 800 on the older frame, which it
    then resizes and writes to a video file.

    The development has three layers.
    - [Cv]: the OpenCV primitives the notebook calls on 8-bit images, with
      the arithmetic OpenCV documents for them (integer, fixed point).
    - [Script]: the loop body and the capture loop, over a store of numpy
      arrays addressed by reference, so that in-place drawing and the
      rotation [frame1 = frame2] alias as they do in Python.
    - the properties of the pipeline.

    The three rasterisers ([cv2.rectangle], [cv2.putText], [cv2.resize]) are
    left abstract (class [Drawing]): every property holds for whatever pixels
    they produce. *)

From stdpp Require Import base list strings.
From Stdlib Require Import ZArith QArith Qabs Lia.
Local Open Scope Z_scope.

(** ** Results of Python calls *)

(** A call returns, raises a Python exception (named by its class), or, in
    this model only, exhausts the step budget of border following. *)
Inductive outcome (A : Type) : Type :=
| Ok (a : A)
| Raise (exn : string)
| OutOfFuel.
Arguments Ok {A} a.
Arguments Raise {A} exn.
Arguments OutOfFuel {A}.

Definition bind {A B : Type} (m : outcome A) (k : A -> outcome B) : outcome B :=
  match m with
  | Ok a => k a
  | Raise e => Raise e
  | OutOfFuel => OutOfFuel
  end.

Notation "x <- m ; k" := (bind m (fun x => k))
  (at level 20, m at level 100, k at level 200, only parsing).

Definition cv2_error : string := "cv2.error".
Definition AttributeError : string := "AttributeError".

(** ** Images *)

(** A single-channel 8-bit image, row by row. *)
Abbreviation image1 := (list (list Z)).
(** A colour pixel in OpenCV's channel order: blue, green, red. *)
Abbreviation pixel := (Z * Z * Z)%type.
(** A frame: [height x width x 3]. *)
Abbreviation image3 := (list (list (Z * Z * Z))).
(** A point [(x, y)]: column first, as OpenCV returns them. *)
Abbreviation point := (Z * Z)%type.
Abbreviation contour := (list (Z * Z)).
(** A rectangle [(x, y, w, h)]. *)
Abbreviation rect := (Z * Z * Z * Z)%type.

Definition rows {A : Type} (m : list (list A)) : Z := Z.of_nat (length m).
Definition cols {A : Type} (m : list (list A)) : Z :=
  match m with
  | [] => 0
  | r :: _ => Z.of_nat (length r)
  end.

(** The array with [h] rows and [w] columns whose cell in row [y], column [x]
    is [f y x]. *)
Definition tabulate {A : Type} (h w : Z) (f : Z -> Z -> A) : list (list A) :=
  (fun y => (fun x => f y x) <$> seqZ 0 w) <$> seqZ 0 h.

(** The cell in row [y], column [x], or [d] outside the array. *)
Definition cell {A : Type} (d : A) (m : list (list A)) (y x : Z) : A :=
  if (y <? 0) || (x <? 0) then d
  else match m !! Z.to_nat y with
       | None => d
       | Some r => default d (r !! Z.to_nat x)
       end.

Definition at1 (m : image1) (y x : Z) : Z := cell 0 m y x.

Definition all_zero (m : image1) : Prop := Forall (Forall (fun v => v = 0)) m.
Definition all_zero3 (m : image3) : Prop := Forall (Forall (fun p => p = (0, 0, 0))) m.

Module Cv.

(** *** [cv2.absdiff] *)

(** [saturate_cast<uchar>]. *)
Definition sat8 (v : Z) : Z := Z.max 0 (Z.min 255 v).

Definition absdiff_px (a b : pixel) : pixel :=
  let '(b1, g1, r1) := a in
  let '(b2, g2, r2) := b in
  (sat8 (Z.abs (b1 - b2)), sat8 (Z.abs (g1 - g2)), sat8 (Z.abs (r1 - r2))).

(** Per channel [|src1 - src2|]; arrays of different sizes are rejected. *)
Definition absdiff (src1 src2 : image3) : outcome image3 :=
  if (rows src1 =? rows src2) && (cols src1 =? cols src2)
  then Ok (zip_with (zip_with absdiff_px) src1 src2)
  else Raise cv2_error.

(** *** [cv2.cvtColor(_, cv2.COLOR_BGR2GRAY)] *)

(** 8-bit luminance in 15-bit fixed point: the weights 3735, 19235 and 9798
    are 0.114, 0.587 and 0.299 scaled by [2^15], rounded to nearest. *)
Definition bgr2gray (p : pixel) : Z :=
  let '(b, g, r) := p in
  Z.shiftr (b * 3735 + g * 19235 + r * 9798 + Z.shiftl 1 14) 15.

(** An empty source fails OpenCV's assertion [!_src.empty()]. *)
Definition cvtColor (src : image3) : outcome image1 :=
  if (rows src =? 0) || (cols src =? 0) then Raise cv2_error
  else Ok ((fun row : list pixel => bgr2gray <$> row) <$> src).

(** *** [cv2.GaussianBlur(_, (5, 5), 0)] *)

(** [BORDER_REFLECT_101]: the index [p] mirrored into [0 .. len-1] without
    repeating the edge cell. Three reflections bring every index a 5-tap
    kernel asks for back into range. *)
Definition reflect101 (len p : Z) : Z :=
  if p <? 0 then - p
  else if len <=? p then 2 * len - 2 - p
  else p.

Definition borderInterpolate (p len : Z) : Z :=
  if len =? 1 then 0
  else reflect101 len (reflect101 len (reflect101 len p)).

(** With sigma 0 and aperture 5 the kernel is the fixed table
    [1 4 6 4 1] / 16. *)
Definition smooth5 (a b c d e : Z) : Z := a + e + 4 * (b + d) + 6 * c.

(** Horizontal pass; the result is kept in sixteenths. *)
Definition hline (src : image1) : image1 :=
  let w := cols src in
  tabulate (rows src) w (fun y x =>
    let g j := at1 src y (borderInterpolate (x + j) w) in
    smooth5 (g (-2)) (g (-1)) (g 0) (g 1) (g 2)).

(** Vertical pass, then rounding of the 1/256 units to the nearest 8-bit
    value (half up). *)
Definition vline (src : image1) : image1 :=
  let h := rows src in
  tabulate h (cols src) (fun y x =>
    let g i := at1 src (borderInterpolate (y + i) h) x in
    Z.shiftr (smooth5 (g (-2)) (g (-1)) (g 0) (g 1) (g 2) + 128) 8).

Definition GaussianBlur (src : image1) : image1 := vline (hline src).

(** *** [cv2.threshold(_, thresh, maxval, cv2.THRESH_BINARY)] *)

(** [THRESH_BINARY]: [dst = maxval] where [src > thresh], 0 elsewhere. *)
Definition threshold_px (thresh maxval v : Z) : Z :=
  if thresh <? v then maxval else 0.

(** Returns the threshold used and the binary image. *)
Definition threshold (src : image1) (thresh maxval : Z) : Z * image1 :=
  (thresh, (fun row : list Z => threshold_px thresh maxval <$> row) <$> src).

(** *** [cv2.dilate(_, None, iterations=n)] *)

Definition neighbourhood3x3 : list point :=
  [(-1, -1); (0, -1); (1, -1); (-1, 0); (0, 0); (1, 0); (-1, 1); (0, 1); (1, 1)].

(** One pass of the default 3x3 rectangular element: the maximum over the
    neighbourhood; cells outside the image do not contribute. *)
Definition dilate1 (src : image1) : image1 :=
  tabulate (rows src) (cols src) (fun y x =>
    fold_right Z.max 0
      ((fun d : point => at1 src (y + d.2) (x + d.1)) <$> neighbourhood3x3)).

Definition dilate (src : image1) (iterations : nat) : image1 :=
  Nat.iter iterations dilate1 src.

(** *** [cv2.findContours(_, cv2.RETR_TREE, cv2.CHAIN_APPROX_SIMPLE)] *)

(** Border following after Suzuki and Abe, as OpenCV implements it: the
    image is reduced to 0/1, scanned in raster order, and every border is
    traced once through the 8-neighbourhood. Traced cells are relabelled
    with the border number [nbd], or with [nbd | -128] where the border has
    background to its right. The nesting of the borders (the hierarchy) is
    not computed: the notebook discards it. OpenCV lists the contours by
    that hierarchy; here they come in the order the scan meets them, and no
    property below depends on the order. *)

Definition px (img : image1) (p : point) : Z := at1 img p.2 p.1.

Definition set_px (img : image1) (p : point) (v : Z) : image1 :=
  if (p.1 <? 0) || (p.2 <? 0) then img
  else alter (fun r => <[Z.to_nat p.1 := v]> r) (Z.to_nat p.2) img.

(** The eight directions, counter-clockwise on the screen from "right". *)
Definition delta (s : Z) : point :=
  match Z.land s 7 with
  | 0 => (1, 0)
  | 1 => (1, -1)
  | 2 => (0, -1)
  | 3 => (-1, -1)
  | 4 => (-1, 0)
  | 5 => (-1, 1)
  | 6 => (0, 1)
  | _ => (1, 1)
  end.

Definition padd (p d : point) : point := (p.1 + d.1, p.2 + d.2).
Definition peq (p q : point) : bool := (p.1 =? q.1) && (p.2 =? q.2).

(** The clockwise search for the first neighbour of the start cell:
    [s = (s - 1) & 7; i1 = i0 + deltas[s]], repeated while the cell at [i1]
    is 0 and [s != s_end]. *)
Fixpoint first_search (n : nat) (img : image1) (i0 : point) (s s_end : Z) : Z :=
  match n with
  | O => s
  | S n =>
    let s' := Z.land (s - 1) 7 in
    if (px img (padd i0 (delta s')) =? 0) && negb (s' =? s_end)
    then first_search n img i0 s' s_end
    else s'
  end.

(** The counter-clockwise search for the next border cell:
    [i4 = i3 + deltas[++s]] while [s < MAX_SIZE - 1], until the cell at [i4]
    is not 0. *)
Fixpoint next_search (n : nat) (img : image1) (i3 : point) (s : Z) : Z :=
  match n with
  | O => s
  | S n =>
    let s' := s + 1 in
    if px img (padd i3 (delta s')) =? 0 then next_search n img i3 s' else s'
  end.

(** The border-following loop. [i0] is the start cell, [i1] its first
    neighbour, [i3] the current cell, [s] the direction back to the previous
    cell, [prev_s] the direction of the last step written. With
    [CHAIN_APPROX_SIMPLE] a cell is written only where the direction
    changes. The loop ends when the step from [i1] to [i0] recurs. *)
Fixpoint follow (fuel : nat) (img : image1) (i0 i1 i3 : point) (s prev_s nbd : Z)
    (acc : list point) : option (image1 * contour) :=
  match fuel with
  | O => None
  | S fuel =>
    let s_end := s in
    let s1 := next_search (Z.to_nat (15 - s)) img i3 s in
    let i4 := padd i3 (delta s1) in
    let s2 := Z.land s1 7 in
    let img' :=
      if (s2 - 1) mod 2 ^ 32 <? s_end then set_px img i3 (Z.lor nbd (-128))
      else if px img i3 =? 1 then set_px img i3 nbd
      else img in
    let acc' := if s2 =? prev_s then acc else i3 :: acc in
    if peq i4 i0 && peq i3 i1 then Some (img', rev acc')
    else follow fuel img' i0 i1 i4 (Z.land (s2 + 4) 7) s2 nbd acc'
  end.

(** Trace the border that starts at [i0]; an isolated cell is a contour of
    one point. *)
Definition fetchContour (fuel : nat) (img : image1) (i0 : point) (is_hole : bool)
    (nbd : Z) : option (image1 * contour) :=
  let s_end := if is_hole then 0 else 4 in
  let s := first_search 8 img i0 s_end s_end in
  if s =? s_end then Some (set_px img i0 (Z.lor nbd (-128)), [i0])
  else follow fuel img i0 (padd i0 (delta s)) i0 s (Z.lxor s 4) nbd [].

(** Border numbers run from 2 to 127 and start again at 3. *)
Definition next_nbd (nbd : Z) : Z :=
  let n := Z.land (nbd + 1) 127 in
  if n =? 0 then n + 3 else n.

(** One cell of the raster scan. A change from 0 to 1 starts an outer
    border at the cell; a change from a positive label to 0 starts a hole
    border at the cell to the left. *)
Definition scan_step (fuel : nat) (st : image1 * Z * list contour) (pos : point)
    : option (image1 * Z * list contour) :=
  let '(img, nbd, acc) := st in
  let prev := px img (pos.1 - 1, pos.2) in
  let p := px img pos in
  let start (is_hole : bool) :=
    match fetchContour fuel img (pos.1 - (if is_hole then 1 else 0), pos.2) is_hole nbd with
    | None => None
    | Some (img', c) => Some (img', next_nbd nbd, c :: acc)
    end in
  if p =? prev then Some st
  else if (prev =? 0) && (p =? 1) then start false
  else if negb (p =? 0) || (prev <? 1) then Some st
  else start true.

Fixpoint scan (fuel : nat) (st : image1 * Z * list contour) (cells : list point)
    : option (image1 * Z * list contour) :=
  match cells with
  | [] => Some st
  | pos :: cells =>
    match scan_step fuel st pos with
    | None => None
    | Some st' => scan fuel st' cells
    end
  end.

(** The cells of an [h x w] image in raster order. *)
Definition raster (h w : Z) : list point :=
  concat (tabulate h w (fun y x => (x, y))).

Definition binarize (src : image1) : image1 :=
  (fun row : list Z => (fun v => if v =? 0 then 0 else 1) <$> row) <$> src.

(** A border visits each cell in each of the eight directions at most once,
    which bounds the steps of one trace. *)
Definition follow_budget (src : image1) : nat := Z.to_nat (8 * rows src * cols src).

Definition findContours (src : image1) : outcome (list contour) :=
  match scan (follow_budget src) (binarize src, 2, []) (raster (rows src) (cols src)) with
  | None => OutOfFuel
  | Some st => Ok (rev st.2)
  end.

(** *** [cv2.contourArea] *)

(** Green's formula: the sum of [x_prev * y - y_prev * x] around the
    closed polygon. *)
Fixpoint shoelace_from (prev : point) (c : contour) (a00 : Z) : Z :=
  match c with
  | [] => a00
  | p :: c => shoelace_from p c (a00 + prev.1 * p.2 - prev.2 * p.1)
  end.

Definition shoelace (c : contour) : Z :=
  match c with
  | [] => 0
  | p0 :: _ => shoelace_from (List.last c p0) c 0
  end.

(** The unoriented area [|a00 * 0.5|]. OpenCV accumulates in double
    precision, which is exact for the coordinates of an image. *)
Definition contourArea (c : contour) : Q := Qabs (inject_Z (shoelace c) * (1 # 2)).

(** *** [cv2.boundingRect] *)

(** The smallest upright rectangle that covers every point. *)
Definition boundingRect (c : contour) : rect :=
  match c with
  | [] => (0, 0, 0, 0)
  | p :: l =>
    let xmin := fold_right Z.min p.1 (fst <$> l) in
    let xmax := fold_right Z.max p.1 (fst <$> l) in
    let ymin := fold_right Z.min p.2 (snd <$> l) in
    let ymax := fold_right Z.max p.2 (snd <$> l) in
    (xmin, ymin, xmax - xmin + 1, ymax - ymin + 1)
  end.

Definition FONT_HERSHEY_SIMPLEX : Z := 0.

End Cv.

(** ** The rasterisers *)

(** [cv2.rectangle img pt1 pt2 color thickness],
    [cv2.putText img text org fontFace fontScale color thickness] and
    [cv2.resize src dsize]. The first two draw in place; here they return
    the new contents of the array they were given. *)
Class Drawing : Type := {
  rectangle : image3 -> point -> point -> pixel -> Z -> image3;
  putText : image3 -> string -> point -> Z -> Z -> pixel -> Z -> image3;
  resize : image3 -> Z * Z -> image3
}.

(** A plain rasteriser to run the script on concrete frames: [outline]
    paints the cells of the box that lie within [thickness] of its edge,
    [stamp] paints one 8x8 block per character above the baseline, and
    [nearest] samples the nearest source cell. *)
Module Plain.

Definition paint (img : image3) (inside : Z -> Z -> bool) (color : pixel) : image3 :=
  imap (fun y row => imap (fun x p =>
    if inside (Z.of_nat y) (Z.of_nat x) then color else p) row) img.

Definition in_box (pt1 pt2 : point) (y x : Z) : bool :=
  (pt1.1 <=? x) && (x <=? pt2.1) && (pt1.2 <=? y) && (y <=? pt2.2).

Definition outline (img : image3) (pt1 pt2 : point) (color : pixel) (thickness : Z)
    : image3 :=
  paint img (fun y x =>
    in_box pt1 pt2 y x &&
    negb (in_box (pt1.1 + thickness, pt1.2 + thickness)
                 (pt2.1 - thickness, pt2.2 - thickness) y x)) color.

Definition stamp (img : image3) (text : string) (org : point)
    (fontFace fontScale : Z) (color : pixel) (thickness : Z) : image3 :=
  paint img (in_box (org.1, org.2 - 8 * fontScale)
                    (org.1 + 8 * fontScale * Z.of_nat (String.length text) - 1, org.2))
        color.

Definition nearest (src : image3) (dsize : Z * Z) : image3 :=
  tabulate dsize.2 dsize.1 (fun y x =>
    cell (0, 0, 0) src (y * rows src / dsize.2) (x * cols src / dsize.1)).

Definition drawing : Drawing :=
  {| rectangle := outline; putText := stamp; resize := nearest |}.

End Plain.

(** ** The script *)

(** numpy arrays live in a store and are named by reference; a Python
    variable holds a reference or [None]. A reference always names a live
    array; [deref] gives the empty array to the others, which no run of the
    script ever asks for. *)
Abbreviation loc := nat.
Abbreviation heap := (list (list (list (Z * Z * Z)))).

Definition deref (hp : heap) (l : loc) : image3 := default [] (hp !! l).

(** The calls a run makes that the properties speak about, in order. An
    [EvRectangle (x, y, w, h)] stands for [cv2.boundingRect] returning
    [(x, y, w, h)] and [cv2.rectangle] drawing from [(x, y)] to
    [(x + w, y + h)]. An [EvPutText] holds the arguments [cv2.putText] was
    called with, after the image. *)
Inductive event : Type :=
| EvAbsdiff (src1 src2 : image3)  (* cv2.absdiff read these two contents *)
| EvRectangle (r : rect)          (* cv2.rectangle outlined the box r *)
| EvPutText (text : string) (org : point) (fontFace fontScale : Z)
            (color : pixel) (thickness : Z)  (* cv2.putText drew this label *)
| EvWrite (image : image3)        (* out.write(image) *)
| EvImshow (img : image3).        (* cv2.imshow of these contents *)

Definition rectangles (evs : list event) : list rect :=
  omap (fun ev => match ev with EvRectangle r => Some r | _ => None end) evs.

(** The labels drawn: text, position, font, scale, colour and thickness
    of each [cv2.putText] call. *)
Definition labels (evs : list event) : list (string * point * Z * Z * pixel * Z) :=
  omap (fun ev =>
    match ev with
    | EvPutText text org fontFace fontScale color thickness =>
      Some (text, org, fontFace, fontScale, color, thickness)
    | _ => None
    end) evs.

Definition written (evs : list event) : list image3 :=
  omap (fun ev => match ev with EvWrite image => Some image | _ => None end) evs.

Definition absdiffs (evs : list event) : list (image3 * image3) :=
  omap (fun ev => match ev with EvAbsdiff a b => Some (a, b) | _ => None end) evs.

Definition Qltb (a b : Q) : bool := negb (Qle_bool b a).

(** Steps 1 to 3 of the loop body: [diff], [gray], [blur]. *)
Definition blurred (src1 src2 : image3) : outcome image1 :=
  diff <- Cv.absdiff src1 src2;
  gray <- Cv.cvtColor diff;
  Ok (Cv.GaussianBlur gray).

(** Step 4: [_, thresh = cv2.threshold(blur, 20, 255, cv2.THRESH_BINARY)]. *)
Definition motion_mask (src1 src2 : image3) : outcome image1 :=
  blur <- blurred src1 src2;
  Ok (Cv.threshold blur 20 255).2.

(** Steps 5 and 6: [dilated], [contours]. *)
Definition motion_contours (src1 src2 : image3) : outcome (list contour) :=
  thresh <- motion_mask src1 src2;
  let dilated := Cv.dilate thresh 3 in
  Cv.findContours dilated.

(** The variables of the script, the store, and the calls made so far. *)
Record state : Type := {
  store : heap;
  frame1 : option loc;
  frame2 : option loc;
  ret : bool;
  trace : list event
}.

(** A contour survives the area filter unless [contourArea < minArea]. *)
Definition survives (minArea : Z) (c : contour) : bool :=
  negb (Qltb (Cv.contourArea c) (inject_Z minArea)).

(** The calls the contour loop makes for the contours that survive. *)
Definition box_events (contours : list contour) : list event :=
  flat_map (fun c =>
    [EvRectangle (Cv.boundingRect c);
     EvPutText "Status: Movement" (10, 20) Cv.FONT_HERSHEY_SIMPLEX 1 (0, 0, 255) 3])
    contours.

Section Script.
Context `{Drawing}.

(** One round of [for contour in contours]: a contour below [minArea] is
    skipped; otherwise its bounding box and the label are drawn on the array
    [frame1] refers to. The notebook fixes [minArea] to 800. *)
Definition contour_step (minArea : Z) (l1 : loc) (st : heap * list event)
    (c : contour) : heap * list event :=
  if Qltb (Cv.contourArea c) (inject_Z minArea) then st
  else
    let '(x, y, w, h) := Cv.boundingRect c in
    let hp := alter (fun img => rectangle img (x, y) (x + w, y + h) (0, 255, 0) 2) l1 st.1 in
    let hp := alter (fun img => putText img "Status: Movement" (10, 20)
                                  Cv.FONT_HERSHEY_SIMPLEX 1 (0, 0, 255) 3) l1 hp in
    (hp, st.2 ++ [EvRectangle (x, y, w, h);
                  EvPutText "Status: Movement" (10, 20)
                            Cv.FONT_HERSHEY_SIMPLEX 1 (0, 0, 255) 3]).

(** The pixels of [img] after the box of [c] and the label are drawn. *)
Definition draw_box (img : image3) (c : contour) : image3 :=
  let '(x, y, w, h) := Cv.boundingRect c in
  putText (rectangle img (x, y) (x + w, y + h) (0, 255, 0) 2)
          "Status: Movement" (10, 20) Cv.FONT_HERSHEY_SIMPLEX 1 (0, 0, 255) 3.

(** The pixels of [img] after the whole contour loop. *)
Definition annotate (minArea : Z) (img : image3) (contours : list contour) : image3 :=
  foldl draw_box img (List.filter (survives minArea) contours).

(** The loop body up to [cv2.imshow]. OpenCV rejects [None] where it expects
    an array. *)
Definition body (minArea : Z) (hp : heap) (frame1 frame2 : option loc)
    : outcome (heap * list event) :=
  match frame1, frame2 with
  | Some l1, Some l2 =>
    let src1 := deref hp l1 in
    let src2 := deref hp l2 in
    contours <- motion_contours src1 src2;
    let st := foldl (contour_step minArea l1) (hp, [EvAbsdiff src1 src2]) contours in
    let image := resize (deref st.1 l1) (1280, 720) in
    Ok (st.1, st.2 ++ [EvWrite image; EvImshow (deref st.1 l1)])
  | _, _ => Raise cv2_error
  end.

(** [while cap.isOpened() and ret:] with [frames] the frames the camera has
    yet to deliver and [keys] the codes [cv2.waitKey] will return (-1 once
    they run out). [cap.read()] allocates a fresh array for each frame it
    delivers. When it fails, [ret] is false and the loop ends whether or not
    ESC was pressed. *)
Fixpoint loop (opened : bool) (frames : list image3) (keys : list Z) (st : state)
    : outcome state :=
  if opened && ret st then
    r <- body 800 (store st) (frame1 st) (frame2 st);
    match frames with
    | [] =>
      Ok {| store := r.1; frame1 := frame2 st; frame2 := None; ret := false;
            trace := trace st ++ r.2 |}
    | f :: frames =>
      let st' := {| store := r.1 ++ [f]; frame1 := frame2 st;
                    frame2 := Some (length r.1); ret := true;
                    trace := trace st ++ r.2 |} in
      if hd (-1) keys =? 27 then Ok st' else loop opened frames (tl keys) st'
    end
  else Ok st.

(** [ret, frame = cap.read()] before the loop. *)
Definition read (opened : bool) (hp : heap) (frames : list image3)
    : bool * option loc * heap * list image3 :=
  match frames with
  | f :: frames' => if opened then (true, Some (length hp), hp ++ [f], frames')
                    else (false, None, hp, frames)
  | [] => (false, None, hp, frames)
  end.

(** The whole cell: two reads, [print(frame1.shape)], the loop. *)
Definition run (opened : bool) (frames : list image3) (keys : list Z) : outcome state :=
  let '(_, frame1, hp, frames) := read opened [] frames in
  let '(ret, frame2, hp, frames) := read opened hp frames in
  match frame1 with
  | None => Raise AttributeError
  | Some _ =>
    loop opened frames keys
      {| store := hp; frame1 := frame1; frame2 := frame2; ret := ret; trace := [] |}
  end.

End Script.

(** Synthetic frames. *)
Definition black (h w : Z) : image3 := tabulate h w (fun _ _ => (0, 0, 0)).

Definition white_square (h w x0 y0 side : Z) : image3 :=
  tabulate h w (fun y x =>
    if (x0 <=? x) && (x <? x0 + side) && (y0 <=? y) && (y <? y0 + side)
    then (255, 255, 255) else (0, 0, 0)).

(** ** Notions the proofs use *)

Import Cv.

(** [img'] has its foreground (the cells that are not 0) where [img] has. *)
Definition same_support (img img' : image1) : Prop :=
  forall p, (px img' p =? 0) = (px img p =? 0).

(** A state of the border follower: the current cell and the direction back
    to the cell it was entered from. *)
Definition valid (img : image1) (x : point * Z) : Prop :=
  0 <= x.2 <= 7 /\ px img x.1 <> 0 /\ px img (padd x.1 (delta x.2)) <> 0.

(** One round of the border-following loop, on the state alone. *)
Definition step (img : image1) (x : point * Z) : point * Z :=
  let s1 := next_search (Z.to_nat (15 - x.2)) img x.1 x.2 in
  (padd x.1 (delta s1), Z.land (Z.land s1 7 + 4) 7).

(** The relabelling of the current cell in one round of the loop. *)
Definition mark (img : image1) (i3 : point) (s_end s2 nbd : Z) : image1 :=
  if (s2 - 1) mod 2 ^ 32 <? s_end then set_px img i3 (Z.lor nbd (-128))
  else if px img i3 =? 1 then set_px img i3 nbd
  else img.

(** All rows have the width of the first, as in a numpy array. *)
Definition rectangular {A : Type} (m : list (list A)) : Prop :=
  Forall (fun r => Z.of_nat (length r) = cols m) m.

(** Every state a border follower can be in. *)
Definition states (h w : Z) : list (Z * Z * Z) := list_prod (raster h w) (seqZ 0 8).

(** Contours that are not empty and run over foreground cells of [img0]. *)
Definition on_foreground (img0 : image1) (cs : list contour) : Prop :=
  Forall (fun c : contour => c <> [] /\ Forall (fun p => px img0 p <> 0) c) cs.

(** A rectangular array of the given size. *)
Definition sized {A : Type} (m : list (list A)) (h w : Z) : Prop :=
  rectangular m /\ rows m = h /\ cols m = w.

(** The label of the notebook: its text, position, font, scale, colour and
    thickness. *)
Definition status_label : string * point * Z * Z * pixel * Z :=
  ("Status: Movement", (10, 20), Cv.FONT_HERSHEY_SIMPLEX, 1, (0, 0, 255), 3).

(** Each edge of [r] is within [t] cells of the same edge of [expected]. *)
Definition within_tolerance (t : Z) (r expected : rect) : Prop :=
  let '(x, y, w, h) := r in
  let '(x0, y0, w0, h0) := expected in
  Z.abs (x - x0) <= t /\ Z.abs (y - y0) <= t /\
  Z.abs (x + w - (x0 + w0)) <= t /\ Z.abs (y + h - (y0 + h0)) <= t.

(** A frame is missing, the two differ in size, or they are empty. *)
Definition invalid_frames (hp : heap) (frame1 frame2 : option loc) : Prop :=
  match frame1, frame2 with
  | Some l1, Some l2 =>
    rows (deref hp l1) <> rows (deref hp l2) \/ cols (deref hp l1) <> cols (deref hp l2) \/
    rows (deref hp l1) = 0 \/ cols (deref hp l1) = 0
  | _, _ => True
  end.

(** A 30x64 frame with two white 22x22 squares side by side. *)
Definition two_squares : image3 :=
  tabulate 30 64 (fun y x =>
    if (4 <=? y) && (y <? 26) && (((4 <=? x) && (x <? 26)) || ((38 <=? x) && (x <? 60)))
    then (255, 255, 255) else (0, 0, 0)).

(** A 12x12 scene: a black frame, then a white 4x4 square in its middle. *)
Definition small_scene : heap := [black 12 12; white_square 12 12 4 4 4].

(** The same two frames in another store, in other places. *)
Definition shuffled_scene : heap := [white_square 12 12 4 4 4; [[]]; black 12 12].

(** A run over three 30x30 frames in which an object appears and goes. *)
Definition passing_object : list image3 :=
  [black 30 30; white_square 30 30 4 4 22; black 30 30].

(** Every channel of [p] is within [d] of the same channel of [q]. *)
Definition channels_within (d : Z) (p q : pixel) : Prop :=
  let '(b1, g1, r1) := p in
  let '(b2, g2, r2) := q in
  Z.abs (b1 - b2) <= d /\ Z.abs (g1 - g2) <= d /\ Z.abs (r1 - r2) <= d.

(** Every channel of [p] lies between [lo] and [hi]. *)
Definition channels_in (lo hi : Z) (p : pixel) : Prop :=
  let '(b, g, r) := p in lo <= b <= hi /\ lo <= g <= hi /\ lo <= r <= hi.

(** Every cell of [m] lies between [lo] and [hi]. *)
Definition cells_in (lo hi : Z) (m : image1) : Prop :=
  Forall (Forall (fun v => lo <= v <= hi)) m.

(** Every cell of [m] is 0 or 255. *)
Definition binary (m : image1) : Prop := Forall (Forall (fun v => v = 0 \/ v = 255)) m.

(** Every cell of [m] is [v]. *)
Definition constant (v : Z) (m : image1) : Prop := Forall (Forall (fun c => c = v)) m.

(** No border starts at [pos]: the cell repeats its left neighbour or is
    not a step from 0 to 1. *)
Definition quiet (img : image1) (pos : point) : Prop :=
  Cv.px img pos = Cv.px img (pos.1 - 1, pos.2) \/
  ~ (Cv.px img (pos.1 - 1, pos.2) = 0 /\ Cv.px img pos = 1).

(** Each side of the rectangle [r] passes through a cell of [m] that is
    255. *)
Definition touches (m : image1) (r : rect) : Prop :=
  let '(x, y, w, h) := r in
  (exists j, y <= j < y + h /\ at1 m j x = 255) /\
  (exists j, y <= j < y + h /\ at1 m j (x + w - 1) = 255) /\
  (exists i, x <= i < x + w /\ at1 m y i = 255) /\
  (exists i, x <= i < x + w /\ at1 m (y + h - 1) i = 255).

(** The contents [cv2.imshow] displayed. *)
Definition shown (evs : list event) : list image3 :=
  omap (fun ev => match ev with EvImshow img => Some img | _ => None end) evs.


(** What [cv2.imshow] displays for the frames [a] and [b]: [a] with the
    boxes of the contours between the two. *)
Definition display `{Drawing} (a b : image3) : image3 :=
  match motion_contours a b with
  | Ok contours => annotate 800 a contours
  | _ => a
  end.

(** Two one-pixel frames that differ by 20 in every channel. *)
Definition faint_pair : heap := [[[(0, 0, 0)]]; [[(20, 20, 20)]]].

(** The mask of an 8x8 scene in which one pixel, in the corner, turns from
    black to white: the blur spreads the change to the two cells next to
    it. *)
Definition spark_mask : image1 :=
  tabulate 8 8 (fun y x => if y + x <=? 1 then 255 else 0).

(** Two one-pixel frames that differ by 30 in every channel. *)
Definition bright_pair : heap := [[[(0, 0, 0)]]; [[(30, 30, 30)]]].

(** * Properties *)

Section Arrays.
Context {A : Type}.
Implicit Types (f : Z -> Z -> A) (m : list (list A)).

Lemma length_tabulate h w f : length (tabulate h w f) = Z.to_nat h.
Proof. unfold tabulate. by rewrite length_fmap, length_seqZ. Qed.

Lemma rows_tabulate h w f : 0 <= h -> rows (tabulate h w f) = h.
Proof. intros. unfold rows. rewrite length_tabulate. lia. Qed.

Lemma lookup_tabulate h w f (i : nat) :
  Z.of_nat i < h ->
  tabulate h w f !! i = Some ((fun x => f (Z.of_nat i) x) <$> seqZ 0 w).
Proof.
  intros Hi. unfold tabulate.
  rewrite list_lookup_fmap, lookup_seqZ_lt by done. done.
Qed.

Lemma lookup_tabulate_ge h w f (i : nat) :
  h <= Z.of_nat i -> tabulate h w f !! i = None.
Proof. intros. apply lookup_ge_None_2. rewrite length_tabulate. lia. Qed.

Lemma Forall_tabulate (P : A -> Prop) h w f :
  (forall y x, 0 <= y < h -> 0 <= x < w -> P (f y x)) ->
  Forall (Forall P) (tabulate h w f).
Proof.
  intros Hf. unfold tabulate.
  apply Forall_fmap, Forall_forall. intros y Hy%elem_of_seqZ. simpl.
  apply Forall_fmap, Forall_forall. intros x Hx%elem_of_seqZ. simpl.
  apply Hf; lia.
Qed.

Lemma width_tabulate h w f :
  Forall (fun r => length r = Z.to_nat w) (tabulate h w f).
Proof.
  unfold tabulate. apply Forall_fmap, Forall_forall. intros y _. simpl.
  by rewrite length_fmap, length_seqZ.
Qed.

Lemma cols_tabulate h w f : 0 < h -> 0 <= w -> cols (tabulate h w f) = w.
Proof.
  intros Hh Hw. unfold cols.
  destruct (tabulate h w f) as [|r t] eqn:E.
  - apply (f_equal length) in E. rewrite length_tabulate in E. simpl in E. lia.
  - pose proof (width_tabulate h w f) as Hall. rewrite E in Hall.
    apply Forall_cons_1 in Hall as [-> _]. lia.
Qed.

Lemma cell_tabulate d h w f y x :
  0 <= y < h -> 0 <= x < w -> cell d (tabulate h w f) y x = f y x.
Proof.
  intros Hy Hx. unfold cell.
  destruct (Z.ltb_spec y 0), (Z.ltb_spec x 0); try lia. simpl.
  rewrite lookup_tabulate by lia.
  rewrite list_lookup_fmap, lookup_seqZ_lt by lia. simpl.
  f_equal; lia.
Qed.

(** A cell that is not the default lies inside the array. *)
Lemma cell_inside d m y x :
  cell d m y x <> d ->
  0 <= y < rows m /\ exists r, m !! Z.to_nat y = Some r /\ 0 <= x < Z.of_nat (length r).
Proof.
  unfold cell, rows. intros Hc.
  destruct (Z.ltb_spec y 0), (Z.ltb_spec x 0); simpl in Hc; try done.
  destruct (m !! Z.to_nat y) as [r|] eqn:Er; [|done].
  destruct (r !! Z.to_nat x) as [v|] eqn:Ev; [|done].
  apply lookup_lt_Some in Er, Ev. split; [lia|]. exists r. split; [done|lia].
Qed.

Lemma cell_Forall (P : A -> Prop) d m y x :
  P d -> Forall (Forall P) m -> P (cell d m y x).
Proof.
  intros Hd Hm. unfold cell.
  destruct ((y <? 0) || (x <? 0)); [done|].
  destruct (m !! Z.to_nat y) as [r|] eqn:Er; [|done].
  destruct (r !! Z.to_nat x) as [v|] eqn:Ev; [|done]. simpl.
  eapply Forall_lookup_1 in Er; [|done].
  eapply Forall_lookup_1 in Ev; done.
Qed.

End Arrays.

Lemma at1_all_zero m y x : all_zero m -> at1 m y x = 0.
Proof. intros Hm. unfold at1. by apply (cell_Forall (fun v => v = 0)). Qed.

Lemma Forall2d_fmap {A B : Type} (P : A -> Prop) (Q : B -> Prop) (g : A -> B)
    (m : list (list A)) :
  (forall a, P a -> Q (g a)) ->
  Forall (Forall P) m -> Forall (Forall Q) ((fun row : list A => g <$> row) <$> m).
Proof.
  intros Hg Hm. apply Forall_fmap. eapply Forall_impl; [exact Hm|].
  intros row Hrow. simpl. apply Forall_fmap. eapply Forall_impl; [exact Hrow|].
  intros a Ha. by apply Hg.
Qed.

Lemma rows_fmap {A B : Type} (g : list A -> list B) (m : list (list A)) :
  rows (g <$> m) = rows m.
Proof. unfold rows. by rewrite length_fmap. Qed.

Lemma cols_fmap {A B : Type} (g : A -> B) (m : list (list A)) :
  cols ((fun row : list A => g <$> row) <$> m) = cols m.
Proof. destruct m as [|r m]; simpl; [done|]. by rewrite length_fmap. Qed.

(** *** Identical frames *)

Lemma absdiff_px_self p : Cv.absdiff_px p p = (0, 0, 0).
Proof. destruct p as [[b g] r]. unfold Cv.absdiff_px. by rewrite !Z.sub_diag. Qed.

Lemma absdiff_self (f : image3) :
  Cv.absdiff f f = Ok ((fun row : list pixel => (fun p => Cv.absdiff_px p p) <$> row) <$> f).
Proof.
  unfold Cv.absdiff. rewrite !Z.eqb_refl. simpl. f_equal.
  rewrite zip_with_diag. apply list_fmap_ext. intros _ row _.
  apply zip_with_diag.
Qed.

Lemma absdiff_self_zero (f : image3) :
  all_zero3 ((fun row : list pixel => (fun p => Cv.absdiff_px p p) <$> row) <$> f).
Proof.
  apply (Forall2d_fmap (fun _ => True)).
  - intros p _. apply absdiff_px_self.
  - apply Forall_forall. intros row _. by apply Forall_forall.
Qed.

Lemma cvtColor_zero (d : image3) :
  all_zero3 d -> 0 < rows d -> 0 < cols d ->
  exists gray, Cv.cvtColor d = Ok gray /\ all_zero gray.
Proof.
  intros Hd Hr Hc. unfold Cv.cvtColor.
  destruct (Z.eqb_spec (rows d) 0); [lia|].
  destruct (Z.eqb_spec (cols d) 0); [lia|]. simpl.
  eexists. split; [done|].
  eapply Forall2d_fmap; [|exact Hd]. by intros p ->.
Qed.

Lemma hline_zero (m : image1) : all_zero m -> all_zero (Cv.hline m).
Proof.
  intros Hm. apply Forall_tabulate. intros y x _ _. simpl.
  by rewrite !at1_all_zero.
Qed.

Lemma vline_zero (m : image1) : all_zero m -> all_zero (Cv.vline m).
Proof.
  intros Hm. apply Forall_tabulate. intros y x _ _. simpl.
  by rewrite !at1_all_zero.
Qed.

Lemma GaussianBlur_zero (m : image1) : all_zero m -> all_zero (Cv.GaussianBlur m).
Proof. intros. by apply vline_zero, hline_zero. Qed.

Lemma threshold_zero (m : image1) (thresh maxval : Z) :
  0 <= thresh -> all_zero m -> all_zero (Cv.threshold m thresh maxval).2.
Proof.
  intros Ht Hm. simpl. eapply Forall2d_fmap; [|exact Hm].
  intros v ->. unfold Cv.threshold_px. by destruct (Z.ltb_spec thresh 0); [lia|].
Qed.

Lemma dilate1_zero (m : image1) : all_zero m -> all_zero (Cv.dilate1 m).
Proof.
  intros Hm. apply Forall_tabulate. intros y x _ _. simpl.
  by rewrite !at1_all_zero.
Qed.

Lemma dilate_zero (m : image1) (n : nat) : all_zero m -> all_zero (Cv.dilate m n).
Proof.
  intros Hm. unfold Cv.dilate. induction n as [|n IH]; simpl; [done|].
  by apply dilate1_zero.
Qed.

Lemma binarize_zero (m : image1) : all_zero m -> all_zero (Cv.binarize m).
Proof.
  intros Hm. unfold Cv.binarize. eapply Forall2d_fmap; [|exact Hm]. by intros v ->.
Qed.

Lemma scan_zero fuel (img : image1) nbd acc cells :
  all_zero img -> Cv.scan fuel (img, nbd, acc) cells = Some (img, nbd, acc).
Proof.
  intros Hz. induction cells as [|pos cells IH]; simpl; [done|].
  unfold Cv.px. rewrite !at1_all_zero by done. simpl. exact IH.
Qed.

Lemma findContours_zero (m : image1) : all_zero m -> Cv.findContours m = Ok [].
Proof.
  intros Hm. unfold Cv.findContours. by rewrite scan_zero by by apply binarize_zero.
Qed.

(** *** Directions *)

Lemma land7 s : Z.land s 7 = s mod 8.
Proof. change 7 with (Z.ones 3). by rewrite Z.land_ones. Qed.

Lemma delta_mod s : delta s = delta (s mod 8).
Proof. unfold delta. rewrite !land7. by rewrite Z.mod_mod. Qed.

Lemma delta_period s : delta (s + 8) = delta s.
Proof.
  rewrite (delta_mod (s + 8)), (delta_mod s). f_equal.
  replace (s + 8) with (s + 1 * 8) by lia. by rewrite Z.mod_add.
Qed.

Lemma delta_eq s t : s mod 8 = t mod 8 -> delta s = delta t.
Proof. intros E. by rewrite (delta_mod s), (delta_mod t), E. Qed.

Lemma mod8_cases s :
  s mod 8 = 0 \/ s mod 8 = 1 \/ s mod 8 = 2 \/ s mod 8 = 3 \/
  s mod 8 = 4 \/ s mod 8 = 5 \/ s mod 8 = 6 \/ s mod 8 = 7.
Proof. pose proof (Z.mod_pos_bound s 8). lia. Qed.

(** The direction [s + 4] undoes the step in direction [s]. *)
Lemma delta_opposite p s : padd (padd p (delta s)) (delta (s + 4)) = p.
Proof.
  destruct p as [x y].
  assert ((s + 4) mod 8 = (s mod 8 + 4) mod 8) as E.
  { rewrite Z.add_mod by lia. by rewrite (Z.mod_small 4 8) by lia. }
  rewrite (delta_mod s), (delta_mod (s + 4)), E.
  destruct (mod8_cases s) as [->|[->|[->|[->|[->|[->|[->| ->]]]]]]];
    unfold padd; simpl; f_equal; lia.
Qed.

Lemma delta_nonzero s : delta s <> (0, 0).
Proof.
  rewrite delta_mod.
  by destruct (mod8_cases s) as [->|[->|[->|[->|[->|[->|[->| ->]]]]]]].
Qed.

(** Distinct directions lead to distinct cells. *)
Lemma delta_inj s t : delta s = delta t -> s mod 8 = t mod 8.
Proof.
  rewrite (delta_mod s), (delta_mod t).
  destruct (mod8_cases s) as [->|[->|[->|[->|[->|[->|[->| ->]]]]]]];
  destruct (mod8_cases t) as [->|[->|[->|[->|[->|[->|[->| ->]]]]]]];
  simpl; intros [=]; done.
Qed.

Lemma peq_spec p q : reflect (p = q) (peq p q).
Proof.
  destruct p as [x y], q as [x' y']. unfold peq. simpl.
  destruct (Z.eqb_spec x x'), (Z.eqb_spec y y'); constructor; congruence.
Qed.

(** *** Relabelling a cell *)

Lemma px_set_px_ne (img : image1) p q v : p <> q -> px (set_px img q v) p = px img p.
Proof.
  intros Hne. unfold set_px, px, at1, cell.
  destruct ((q.1 <? 0) || (q.2 <? 0)) eqn:Eq; [done|].
  apply orb_false_iff in Eq as [Hq1%Z.ltb_ge Hq2%Z.ltb_ge].
  destruct (Z.ltb_spec p.2 0), (Z.ltb_spec p.1 0); simpl; try done.
  destruct (decide (Z.to_nat q.2 = Z.to_nat p.2)) as [E|E].
  - rewrite E, list_lookup_alter_eq.
    destruct (img !! Z.to_nat p.2) as [r|]; simpl; [|done].
    rewrite list_lookup_insert_ne; [done|].
    intros E'. apply Hne. destruct p, q; simpl in *. f_equal; lia.
  - by rewrite list_lookup_alter_ne.
Qed.

Lemma px_set_px_eq (img : image1) q v : px img q <> 0 -> px (set_px img q v) q = v.
Proof.
  intros Hq. apply cell_inside in Hq as (Hy & r & Hr & Hx).
  unfold set_px, px, at1, cell.
  destruct (Z.ltb_spec q.1 0), (Z.ltb_spec q.2 0); try lia. simpl.
  rewrite list_lookup_alter_eq, Hr. simpl.
  rewrite list_lookup_insert_eq by lia. done.
Qed.

(** Relabelling a foreground cell with a non-zero label keeps the
    foreground. *)
Lemma set_px_support (img : image1) q v p :
  px img q <> 0 -> v <> 0 -> (px (set_px img q v) p =? 0) = (px img p =? 0).
Proof.
  intros Hq Hv. destruct (decide (p = q)) as [->|Hne].
  - rewrite px_set_px_eq by done.
    destruct (Z.eqb_spec v 0), (Z.eqb_spec (px img q) 0); done.
  - by rewrite px_set_px_ne.
Qed.

Lemma same_support_refl img : same_support img img.
Proof. done. Qed.

Lemma same_support_trans a b c :
  same_support a b -> same_support b c -> same_support a c.
Proof. intros H1 H2 p. by rewrite H2, H1. Qed.

Lemma same_support_nonzero img img' p :
  same_support img img' -> px img p <> 0 -> px img' p <> 0.
Proof.
  intros Hs Hp. specialize (Hs p).
  destruct (Z.eqb_spec (px img' p) 0), (Z.eqb_spec (px img p) 0); done.
Qed.

Lemma same_support_sym a b : same_support a b -> same_support b a.
Proof. intros Hs p. by rewrite Hs. Qed.

Lemma next_search_support n img img' i3 s :
  same_support img img' -> next_search n img' i3 s = next_search n img i3 s.
Proof.
  intros Hs. revert s. induction n as [|n IH]; intros s; simpl; [done|].
  by rewrite Hs, IH.
Qed.

(** The search stops at the first foreground cell it meets. *)
Lemma next_search_first (n : nat) img i3 s (k : nat) :
  (1 <= k <= n)%nat -> px img (padd i3 (delta (s + Z.of_nat k))) <> 0 ->
  let s1 := next_search n img i3 s in
  s < s1 <= s + Z.of_nat k /\ px img (padd i3 (delta s1)) <> 0 /\
  forall t, s < t < s1 -> px img (padd i3 (delta t)) = 0.
Proof.
  revert s k. induction n as [|n IH]; intros s k Hk Hpx; [lia|]. simpl.
  destruct (Z.eqb_spec (px img (padd i3 (delta (s + 1)))) 0) as [E|E].
  - destruct (decide (k = 1%nat)) as [->|Hk1]; [done|].
    destruct (IH (s + 1) (k - 1)%nat) as (Hr & Hnz & Hmin); [lia| |].
    { by replace (s + 1 + Z.of_nat (k - 1)) with (s + Z.of_nat k) by lia. }
    split; [lia|]. split; [done|]. intros t Ht.
    destruct (decide (t = s + 1)) as [->|]; [done|]. apply Hmin. lia.
  - split; [lia|]. split; [done|]. intros t Ht. lia.
Qed.

Lemma next_search_valid img i3 s :
  valid img (i3, s) ->
  let s1 := next_search (Z.to_nat (15 - s)) img i3 s in
  s < s1 <= s + 8 /\ px img (padd i3 (delta s1)) <> 0 /\
  forall t, s < t < s1 -> px img (padd i3 (delta t)) = 0.
Proof.
  intros (Hs & _ & Hback). simpl in *.
  apply (next_search_first _ img i3 s 8); [lia|].
  by rewrite delta_period.
Qed.

Lemma step_back img x : (step img x).2 mod 8 = (next_search (Z.to_nat (15 - x.2)) img x.1 x.2 + 4) mod 8.
Proof.
  unfold step. simpl. rewrite !land7.
  rewrite Z.mod_mod by lia. by rewrite Zplus_mod_idemp_l.
Qed.

(** The cell a step came from lies in the direction the new state records. *)
Lemma step_origin img x : padd (step img x).1 (delta (step img x).2) = x.1.
Proof.
  erewrite (delta_eq (step img x).2); [|apply step_back].
  simpl. apply delta_opposite.
Qed.

Lemma step_valid img x : valid img x -> valid img (step img x).
Proof.
  intros Hv. destruct x as [i3 s].
  destruct (next_search_valid img i3 s Hv) as (Hr & Hnz & _).
  split; [|split].
  - unfold step. simpl. rewrite (land7 (_ + 4)).
    pose proof (Z.mod_pos_bound (Z.land (next_search (Z.to_nat (15 - s)) img i3 s) 7 + 4) 8). lia.
  - done.
  - rewrite step_origin. by destruct Hv as (_ & ? & _).
Qed.

Lemma step_support img img' x : same_support img img' -> step img' x = step img x.
Proof. intros Hs. unfold step. by rewrite (next_search_support _ img img'). Qed.

Lemma valid_support img img' x : same_support img img' -> valid img x -> valid img' x.
Proof.
  intros Hs (? & ? & ?). split; [done|]. split; by eapply same_support_nonzero.
Qed.

(** Two states with the same successor are the same state. *)
Lemma step_inj img x y : valid img x -> valid img y -> step img x = step img y -> x = y.
Proof.
  intros Hx Hy E.
  assert (x.1 = y.1) as Hp.
  { rewrite <- (step_origin img x), <- (step_origin img y). by rewrite E. }
  destruct x as [p sa], y as [q sb]. simpl in Hp. subst q. f_equal.
  destruct (next_search_valid img p sa Hx) as (Ha & Hnza & Hmina).
  destruct (next_search_valid img p sb Hy) as (Hb & Hnzb & Hminb).
  assert (delta (next_search (Z.to_nat (15 - sa)) img p sa)
          = delta (next_search (Z.to_nat (15 - sb)) img p sb)) as Hd.
  { apply (f_equal fst) in E. unfold step in E. simpl in E.
    destruct (delta _), (delta _), p. unfold padd in E. simpl in E.
    injection E as E1 E2. f_equal; lia. }
  apply delta_inj in Hd.
  set (a := next_search _ img p sa) in *. set (b := next_search _ img p sb) in *.
  destruct Hx as (Hsa & _ & Hxa), Hy as (Hsb & _ & Hxb). simpl in *.
  destruct (Z.lt_trichotomy sa sb) as [Hlt|[->|Hlt]]; [|done|].
  - (* sa < sb: a stops at or before sb, b at or before sa + 8 *)
    assert (a <= sb) as Hale.
    { destruct (Z.le_gt_cases a sb); [done|]. exfalso. apply Hxb, Hmina. lia. }
    assert (b <= sa + 8) as Hble.
    { destruct (Z.le_gt_cases b (sa + 8)); [done|]. exfalso.
      apply Hxa. rewrite <- delta_period. apply Hminb. lia. }
    exfalso. assert ((b - a) mod 8 = 0) as Hm.
    { rewrite Zminus_mod, Hd, Z.sub_diag. done. }
    apply Z.mod_divide in Hm; [|lia]. destruct Hm as [c Hc]. lia.
  - assert (b <= sa) as Hble.
    { destruct (Z.le_gt_cases b sa); [done|]. exfalso. apply Hxa, Hminb. lia. }
    assert (a <= sb + 8) as Hale.
    { destruct (Z.le_gt_cases a (sb + 8)); [done|]. exfalso.
      apply Hxb. rewrite <- delta_period. apply Hmina. lia. }
    exfalso. assert ((a - b) mod 8 = 0) as Hm.
    { rewrite Zminus_mod, Hd, Z.sub_diag. done. }
    apply Z.mod_divide in Hm; [|lia]. destruct Hm as [c Hc]. lia.
Qed.

(** *** Orbits of an injective map on a finite set *)

Section Orbit.
Context {X : Type} `{EqDecision X}.
Variables (f : X -> X) (V : X -> Prop) (univ : list X).
Hypothesis V_step : forall x, V x -> V (f x).
Hypothesis f_inj : forall x y, V x -> V y -> f x = f y -> x = y.
Hypothesis V_univ : forall x, V x -> In x univ.

Lemma iter_V (n : nat) x : V x -> V (Nat.iter n f x).
Proof. intros Hx. induction n as [|n IH]; simpl; auto. Qed.

Lemma iter_cancel (i k : nat) x :
  V x -> Nat.iter (i + k) f x = Nat.iter i f x -> Nat.iter k f x = x.
Proof.
  intros Hx. induction i as [|i IH]; simpl; [done|].
  intros E. apply IH. apply f_inj; [by apply iter_V..|done].
Qed.

(** Some two of the first [n] iterates coincide, or they are all distinct. *)
Lemma iterates_collide_or_not (n : nat) x :
  (exists i j : nat, (i < j < n)%nat /\ Nat.iter i f x = Nat.iter j f x) \/
  NoDup ((fun i => Nat.iter i f x) <$> seq 0 n).
Proof.
  destruct (decide (Exists (fun i => Exists (fun j =>
      (i < j)%nat /\ Nat.iter i f x = Nat.iter j f x) (seq 0 n)) (seq 0 n)))
    as [Hex|Hno].
  - left. apply Exists_exists in Hex as (i & Hi & Hex).
    apply Exists_exists in Hex as (j & Hj & Hlt & E).
    apply elem_of_seq in Hj. exists i, j. split; [lia|done].
  - right. apply NoDup_fmap_2_strong; [|apply NoDup_seq].
    intros i j Hi Hj E.
    destruct (Nat.lt_trichotomy i j) as [Hlt|[->|Hlt]]; [|done|]; exfalso; apply Hno.
    + apply Exists_exists. exists i. split; [done|].
      apply Exists_exists. exists j. done.
    + apply Exists_exists. exists j. split; [done|].
      apply Exists_exists. exists i. done.
Qed.

(** Every point of [V] returns to itself within [length univ] steps. *)
Lemma orbit_returns x :
  V x -> exists n : nat, (1 <= n <= length univ)%nat /\ Nat.iter n f x = x.
Proof.
  intros Hx.
  destruct (iterates_collide_or_not (S (length univ)) x) as [(i & j & Hij & E)|Hnd].
  - exists (j - i)%nat. split; [lia|].
    apply (iter_cancel i); [done|].
    replace (i + (j - i))%nat with j by lia. done.
  - exfalso. apply NoDup_submseteq with (k := univ) in Hnd.
    + apply submseteq_length in Hnd.
      rewrite length_fmap, length_seq in Hnd. lia.
    + intros y (i & -> & _)%list_elem_of_fmap.
      apply list_elem_of_In, V_univ. by apply iter_V.
Qed.

End Orbit.

(** *** The border-following loop *)

Lemma rev_eq_nil {A : Type} (l : list A) : rev l = [] -> l = [].
Proof. intros Hr. apply (f_equal (@rev A)) in Hr. by rewrite rev_involutive in Hr. Qed.

Lemma lor_m128_nonzero nbd : Z.lor nbd (-128) <> 0.
Proof.
  assert (Z.lor nbd (-128) < 0); [|lia]. apply Z.lor_neg. lia.
Qed.

Lemma mark_support img i3 s_end s2 nbd :
  px img i3 <> 0 -> nbd <> 0 -> same_support img (mark img i3 s_end s2 nbd).
Proof.
  intros Hpx Hnbd p. unfold mark.
  destruct (_ <? s_end).
  - apply set_px_support; [done|apply lor_m128_nonzero].
  - destruct (px img i3 =? 1); [by apply set_px_support|done].
Qed.

Lemma follow_unfold fuel img i0 i1 i3 s prev_s nbd acc :
  follow (S fuel) img i0 i1 i3 s prev_s nbd acc =
  let x' := step img (i3, s) in
  let s2 := Z.land (next_search (Z.to_nat (15 - s)) img i3 s) 7 in
  let img' := mark img i3 s s2 nbd in
  let acc' := if s2 =? prev_s then acc else i3 :: acc in
  if peq x'.1 i0 && peq i3 i1 then Some (img', rev acc')
  else follow fuel img' i0 i1 x'.1 x'.2 s2 nbd acc'.
Proof. reflexivity. Qed.

(** What a finished trace returns: the foreground is unchanged, and every
    point written is a foreground cell. *)
Lemma follow_spec fuel : forall img i0 i1 i3 s prev_s nbd acc img' c,
  valid img (i3, s) -> nbd <> 0 ->
  follow fuel img i0 i1 i3 s prev_s nbd acc = Some (img', c) ->
  same_support img img' /\ (forall p, In p c -> In p acc \/ px img p <> 0).
Proof.
  induction fuel as [|fuel IH]; intros img i0 i1 i3 s prev_s nbd acc img' c Hv Hnbd;
    [done|].
  rewrite follow_unfold. cbv zeta.
  set (s2 := Z.land _ 7). set (x' := step img (i3, s)).
  pose proof Hv as (_ & Hpx & _). simpl in Hpx.
  pose proof (mark_support img i3 s s2 nbd Hpx Hnbd) as Hsup.
  assert (forall p, In p (if s2 =? prev_s then acc else i3 :: acc) ->
                    In p acc \/ px img p <> 0) as Hacc.
  { intros p. destruct (s2 =? prev_s); [by left|].
    intros [<-|]; [by right|by left]. }
  destruct (peq x'.1 i0 && peq i3 i1).
  - intros [= <- <-]. split; [done|]. intros p Hp%in_rev. by apply Hacc.
  - intros Hf. apply IH in Hf as [Hsup' Hc]; [|by apply (valid_support img), step_valid|done].
    split; [by eapply same_support_trans|].
    intros p Hp. destruct (Hc p Hp) as [Hin|Hnz]; [by apply Hacc|].
    right. by eapply same_support_nonzero; [apply same_support_sym|].
Qed.

(** A finished trace wrote at least one point: steps that all go the same
    way never lead back to the start. *)
Lemma follow_nonempty fuel : forall img i0 i1 i3 s prev_s nbd acc img' c (n : Z),
  0 <= n ->
  (acc = [] -> i3 = (i0.1 + n * (delta prev_s).1, i0.2 + n * (delta prev_s).2)) ->
  follow fuel img i0 i1 i3 s prev_s nbd acc = Some (img', c) -> c <> [].
Proof.
  induction fuel as [|fuel IH]; intros img i0 i1 i3 s prev_s nbd acc img' c n Hn Hacc;
    [done|].
  rewrite follow_unfold. cbv zeta.
  set (s1 := next_search _ img i3 s). set (s2 := Z.land s1 7).
  assert (delta s1 = delta s2) as Hd.
  { apply delta_eq. unfold s2. by rewrite land7, Z.mod_mod. }
  destruct (Z.eqb_spec s2 prev_s) as [E|E].
  - destruct (peq_spec (step img (i3, s)).1 i0) as [Hi0|]; simpl.
    + destruct (peq i3 i1).
      * intros [= <- <-]. intros Hrev.
        apply rev_eq_nil in Hrev. subst acc.
        specialize (Hacc eq_refl). subst i3.
        unfold step in Hi0. simpl in Hi0. fold s1 in Hi0. rewrite Hd, E in Hi0.
        pose proof (delta_nonzero prev_s) as Hnz.
        destruct i0 as [x0 y0], (delta prev_s) as [dx dy]. unfold padd in Hi0.
        simpl in *. injection Hi0 as Hx Hy.
        apply Hnz. f_equal; nia.
      * apply (IH _ _ _ _ _ _ _ _ _ _ (n + 1)); [lia|].
        intros Hnil. specialize (Hacc Hnil). subst i3.
        unfold step. simpl. fold s1. rewrite Hd, E. unfold padd. simpl. f_equal; lia.
    + apply (IH _ _ _ _ _ _ _ _ _ _ (n + 1)); [lia|].
      intros Hnil. specialize (Hacc Hnil). subst i3.
      unfold step. simpl. fold s1. rewrite Hd, E. unfold padd. simpl. f_equal; lia.
  - destruct (peq (step img (i3, s)).1 i0 && peq i3 i1).
    + intros [= <- <-]. intros Hrev. simpl in Hrev. by destruct (rev acc).
    + apply (IH _ _ _ _ _ _ _ _ _ _ 0); [lia|done].
Qed.

(** The loop ends once the follower is back in the state it started from. *)
Lemma follow_terminates img0 i0 s0 fuel : forall img i3 s prev_s nbd acc (n : nat),
  same_support img0 img -> valid img0 (i3, s) -> nbd <> 0 ->
  (1 <= n <= fuel)%nat -> Nat.iter n (step img0) (i3, s) = (i0, s0) ->
  is_Some (follow fuel img i0 (padd i0 (delta s0)) i3 s prev_s nbd acc).
Proof.
  induction fuel as [|fuel IH]; intros img i3 s prev_s nbd acc n Hsup Hv Hnbd Hn Hit;
    [lia|].
  rewrite follow_unfold. cbv zeta.
  rewrite (step_support img0 img) by done.
  pose proof (step_origin img0 (i3, s)) as Ho.
  pose proof (step_valid img0 (i3, s) Hv) as Hv'.
  assert (n <> 1%nat -> Nat.iter (n - 1) (step img0) (step img0 (i3, s)) = (i0, s0)) as Hit'.
  { intros Hn1. rewrite <- Nat.iter_succ_r. by replace (S (n - 1)) with n by lia. }
  assert (n = 1%nat -> step img0 (i3, s) = (i0, s0)) as Hit1.
  { by intros ->. }
  assert (same_support img0
            (mark img i3 s (Z.land (next_search (Z.to_nat (15 - s)) img i3 s) 7) nbd))
    as Hsup'.
  { eapply same_support_trans; [done|]. apply mark_support; [|done].
    eapply same_support_nonzero; [done|]. by destruct Hv as (_ & ? & _). }
  destruct (step img0 (i3, s)) as [i4 s'] eqn:Ex. simpl in *.
  destruct (peq_spec i4 i0) as [Hi0|Hi0]; simpl.
  - destruct (peq_spec i3 (padd i0 (delta s0))) as [Hi1|Hi1]; [done|].
    destruct (decide (n = 1%nat)) as [Hn1|Hn1].
    + exfalso. apply Hi1. specialize (Hit1 Hn1). injection Hit1 as -> ->. done.
    + apply (IH _ _ _ _ _ _ (n - 1)%nat); [done..|lia|auto].
  - destruct (decide (n = 1%nat)) as [Hn1|Hn1].
    + exfalso. apply Hi0. specialize (Hit1 Hn1). by injection Hit1.
    + apply (IH _ _ _ _ _ _ (n - 1)%nat); [done..|lia|auto].
Qed.

(** Evaluate the direction arithmetic of an unrolled search: the masked
    directions and the comparisons between two of them. *)
Ltac eval_directions :=
  repeat match goal with
  | |- context [Z.land ?a 7] =>
      let v := eval vm_compute in (Z.land a 7) in change (Z.land a 7) with v
  end;
  repeat match goal with
  | |- context [?a =? ?b] =>
      let v := eval vm_compute in (a =? b) in
      match v with true => idtac | false => idtac end;
      change (a =? b) with v
  end;
  cbn [negb andb].

(** The first search returns the start direction (an isolated cell) or the
    direction of a foreground neighbour. *)
Lemma first_search_spec img i0 s_end :
  s_end = 0 \/ s_end = 4 ->
  let s := first_search 8 img i0 s_end s_end in
  s = s_end \/ (0 <= s <= 7 /\ px img (padd i0 (delta s)) <> 0).
Proof.
  intros [-> | ->]; cbn [first_search]; eval_directions;
    repeat match goal with
    | |- context [px ?i ?p =? 0] => destruct (Z.eqb_spec (px i p) 0); cbn [andb]
    end;
    try (by left); right; (split; [lia|done]).
Qed.

(** *** Rectangular arrays and the cells of the scan *)

Lemma rectangular_tabulate {A : Type} h w (f : Z -> Z -> A) :
  0 <= w -> rectangular (tabulate h w f).
Proof.
  intros Hw. unfold rectangular.
  destruct (Z.ltb_spec 0 h) as [Hh|Hh].
  - rewrite cols_tabulate by lia.
    eapply Forall_impl; [apply width_tabulate|]. intros r Hr. simpl in Hr. lia.
  - replace (tabulate h w f) with (@nil (list A)); [done|].
    symmetry. apply length_zero_iff_nil. rewrite length_tabulate. lia.
Qed.

Lemma rectangular_fmap {A B : Type} (g : A -> B) (m : list (list A)) :
  rectangular m -> rectangular ((fun row : list A => g <$> row) <$> m).
Proof.
  unfold rectangular. intros Hm. rewrite cols_fmap.
  apply Forall_fmap. eapply Forall_impl; [exact Hm|].
  intros r Hr. simpl. by rewrite length_fmap.
Qed.

(** A foreground cell of a rectangular image lies within its bounds. *)
Lemma px_inside (m : image1) p :
  rectangular m -> px m p <> 0 -> 0 <= p.1 < cols m /\ 0 <= p.2 < rows m.
Proof.
  intros Hm Hp. apply cell_inside in Hp as (Hy & r & Hr & Hx).
  eapply Forall_lookup_1 in Hm; [|exact Hr]. simpl in Hm. lia.
Qed.

Lemma In_raster h w x y : In (x, y) (raster h w) <-> 0 <= y < h /\ 0 <= x < w.
Proof.
  unfold raster, tabulate. rewrite in_concat. split.
  - intros (row & Hrow & Hin). apply list_elem_of_In in Hrow, Hin.
    apply list_elem_of_fmap in Hrow as (y' & -> & Hy).
    apply list_elem_of_fmap in Hin as (x' & [= -> ->] & Hx).
    apply elem_of_seqZ in Hy, Hx. lia.
  - intros [Hy Hx]. exists ((fun x => (x, y)) <$> seqZ 0 w).
    split; apply list_elem_of_In, list_elem_of_fmap.
    + exists y. split; [done|]. apply elem_of_seqZ. lia.
    + exists x. split; [done|]. apply elem_of_seqZ. lia.
Qed.

Lemma length_raster h w : length (raster h w) = (Z.to_nat h * Z.to_nat w)%nat.
Proof.
  unfold raster, tabulate.
  assert (forall l : list Z,
    length (concat ((fun y => (fun x => (x, y)) <$> seqZ 0 w) <$> l))
    = (length l * Z.to_nat w)%nat) as Hl.
  { induction l as [|y l IH]; [done|].
    rewrite fmap_cons. cbn [concat].
    rewrite length_app, IH, length_fmap, length_seqZ. simpl. lia. }
  by rewrite Hl, length_seqZ.
Qed.

Lemma length_states (m : image1) :
  length (states (rows m) (cols m)) = follow_budget m.
Proof.
  unfold states, follow_budget. rewrite length_prod, length_raster, length_seqZ.
  unfold rows. destruct m as [|r m]; simpl; lia.
Qed.

Lemma valid_in_states (m : image1) x :
  rectangular m -> valid m x -> In x (states (rows m) (cols m)).
Proof.
  intros Hm (Hs & Hp & _). destruct x as [[px0 py0] s]. simpl in *.
  apply in_prod_iff. split.
  - apply In_raster. apply (px_inside m (px0, py0)) in Hp; [simpl in Hp; lia|done].
  - apply list_elem_of_In, elem_of_seqZ. lia.
Qed.

(** *** One border *)

Lemma fetchContour_spec fuel img i0 is_hole nbd img' c :
  px img i0 <> 0 -> nbd <> 0 ->
  fetchContour fuel img i0 is_hole nbd = Some (img', c) ->
  same_support img img' /\ c <> [] /\ forall p, In p c -> px img p <> 0.
Proof.
  intros Hpx Hnbd. unfold fetchContour.
  set (s_end := if is_hole then 0 else 4).
  pose proof (first_search_spec img i0 s_end) as Hfs.
  destruct (Z.eqb_spec (first_search 8 img i0 s_end s_end) s_end) as [E|E].
  - intros [= <- <-]. split; [|split; [done|]].
    + intros p. apply set_px_support; [done|apply lor_m128_nonzero].
    + by intros p [<-|[]].
  - destruct Hfs as [?|[Hs Hnz]]; [by destruct is_hole; [left|right]|done|].
    intros Hf.
    assert (valid img (i0, first_search 8 img i0 s_end s_end)) as Hv.
    { split; [done|]. by split. }
    pose proof (follow_spec _ _ _ _ _ _ _ _ _ _ _ Hv Hnbd Hf) as [Hsup Hc].
    split; [done|]. split.
    + eapply (follow_nonempty _ _ _ _ _ _ _ _ _ _ _ 0); [lia| |exact Hf].
      intros _. destruct i0. simpl. f_equal; lia.
    + intros p Hp. by destruct (Hc p Hp).
Qed.

Lemma fetchContour_total img0 fuel img i0 is_hole nbd :
  rectangular img0 -> same_support img0 img -> (follow_budget img0 <= fuel)%nat ->
  px img0 i0 <> 0 -> nbd <> 0 ->
  is_Some (fetchContour fuel img i0 is_hole nbd).
Proof.
  intros Hrect Hsup Hfuel Hpx Hnbd. unfold fetchContour.
  set (s_end := if is_hole then 0 else 4).
  pose proof (first_search_spec img i0 s_end) as Hfs.
  destruct (Z.eqb_spec (first_search 8 img i0 s_end s_end) s_end) as [E|E]; [done|].
  destruct Hfs as [?|[Hs Hnz]]; [by destruct is_hole; [left|right]|done|].
  set (s0 := first_search 8 img i0 s_end s_end) in *.
  assert (valid img0 (i0, s0)) as Hv.
  { split; [done|]. split; [done|].
    by eapply same_support_nonzero; [apply same_support_sym|]. }
  destruct (orbit_returns (step img0) (valid img0) (states (rows img0) (cols img0)))
    with (x := (i0, s0)) as (n & Hn & Hit).
  - apply step_valid.
  - apply step_inj.
  - intros x. by apply valid_in_states.
  - done.
  - rewrite length_states in Hn.
    apply (follow_terminates img0 i0 s0 fuel img i0 s0 _ nbd [] n); [done..|lia|done].
Qed.

(** *** The raster scan *)

Lemma next_nbd_nonzero nbd : next_nbd nbd <> 0.
Proof.
  unfold next_nbd. destruct (Z.eqb_spec (Z.land (nbd + 1) 127) 0) as [->|]; [done|done].
Qed.

Lemma scan_step_spec img0 fuel img nbd acc pos st' :
  same_support img0 img -> nbd <> 0 -> on_foreground img0 acc ->
  scan_step fuel (img, nbd, acc) pos = Some st' ->
  same_support img0 st'.1.1 /\ st'.1.2 <> 0 /\ on_foreground img0 st'.2.
Proof.
  intros Hsup Hnbd Hacc. unfold scan_step.
  assert (forall is_hole i0,
    px img i0 <> 0 ->
    match fetchContour fuel img i0 is_hole nbd with
    | Some (img', c) => Some (img', next_nbd nbd, c :: acc)
    | None => None
    end = Some st' ->
    same_support img0 st'.1.1 /\ st'.1.2 <> 0 /\ on_foreground img0 st'.2) as Hstart.
  { intros is_hole i0 Hpx.
    destruct (fetchContour fuel img i0 is_hole nbd) as [[img' c]|] eqn:Ef; [|done].
    intros [= <-]. simpl.
    apply fetchContour_spec in Ef as (Hs & Hne & Hc); [|done..].
    split; [by eapply same_support_trans|]. split; [apply next_nbd_nonzero|].
    apply Forall_cons. split; [|done]. split; [done|].
    apply Forall_forall. intros p Hp%list_elem_of_In.
    eapply same_support_nonzero; [by apply same_support_sym|]. by apply Hc. }
  destruct (Z.eqb_spec (px img pos) (px img (pos.1 - 1, pos.2))) as [E|E].
  { by intros [= <-]. }
  destruct (Z.eqb_spec (px img (pos.1 - 1, pos.2)) 0) as [E0|E0]; simpl.
  - destruct (Z.eqb_spec (px img pos) 1) as [E1|E1]; simpl.
    + apply Hstart. rewrite Z.sub_0_r, <- surjective_pairing. lia.
    + rewrite E0. change (0 <? 1) with true. rewrite orb_true_r. by intros [= <-].
  - destruct (Z.eqb_spec (px img pos) 0) as [Ep|Ep]; simpl; [|by intros [= <-]].
    destruct (Z.ltb_spec (px img (pos.1 - 1, pos.2)) 1); [by intros [= <-]|].
    by apply Hstart.
Qed.

Lemma scan_step_total img0 fuel img nbd acc pos :
  rectangular img0 -> same_support img0 img -> (follow_budget img0 <= fuel)%nat ->
  nbd <> 0 -> is_Some (scan_step fuel (img, nbd, acc) pos).
Proof.
  intros Hrect Hsup Hfuel Hnbd. unfold scan_step.
  assert (forall is_hole i0,
    px img i0 <> 0 ->
    is_Some (match fetchContour fuel img i0 is_hole nbd with
             | Some (img', c) => Some (img', next_nbd nbd, c :: acc)
             | None => None
             end)) as Hstart.
  { intros is_hole i0 Hpx.
    destruct (fetchContour_total img0 fuel img i0 is_hole nbd) as [[img' c] ->];
      [done..| |done|done].
    eapply same_support_nonzero; [by apply same_support_sym|done]. }
  destruct (Z.eqb_spec (px img pos) (px img (pos.1 - 1, pos.2))) as [E|E]; [done|].
  destruct (Z.eqb_spec (px img (pos.1 - 1, pos.2)) 0) as [E0|E0]; simpl.
  - destruct (Z.eqb_spec (px img pos) 1) as [E1|E1]; simpl.
    + apply Hstart. rewrite Z.sub_0_r, <- surjective_pairing. lia.
    + rewrite E0. change (0 <? 1) with true. by rewrite orb_true_r.
  - destruct (Z.eqb_spec (px img pos) 0) as [Ep|Ep]; simpl; [|done].
    destruct (Z.ltb_spec (px img (pos.1 - 1, pos.2)) 1); [done|].
    by apply Hstart.
Qed.

Lemma scan_spec img0 fuel cells : forall img nbd acc st',
  same_support img0 img -> nbd <> 0 -> on_foreground img0 acc ->
  scan fuel (img, nbd, acc) cells = Some st' -> on_foreground img0 st'.2.
Proof.
  induction cells as [|pos cells IH]; intros img nbd acc st' Hsup Hnbd Hacc;
    cbn [scan].
  { by intros [= <-]. }
  destruct (scan_step fuel (img, nbd, acc) pos) as [[[img1 nbd1] acc1]|] eqn:Es; [|done].
  pose proof (scan_step_spec img0 fuel img nbd acc pos _ Hsup Hnbd Hacc Es) as (? & ? & ?).
  by apply IH.
Qed.

Lemma scan_total img0 fuel cells : forall img nbd acc,
  rectangular img0 -> same_support img0 img -> (follow_budget img0 <= fuel)%nat ->
  nbd <> 0 -> on_foreground img0 acc ->
  is_Some (scan fuel (img, nbd, acc) cells).
Proof.
  induction cells as [|pos cells IH]; intros img nbd acc Hrect Hsup Hfuel Hnbd Hacc;
    cbn [scan]; [done|].
  destruct (scan_step_total img0 fuel img nbd acc pos) as [[[img1 nbd1] acc1] Es];
    [done..|].
  rewrite Es.
  pose proof (scan_step_spec img0 fuel img nbd acc pos _ Hsup Hnbd Hacc Es) as (? & ? & ?).
  by apply IH.
Qed.

(** *** [findContours] *)

Lemma rows_binarize src : rows (binarize src) = rows src.
Proof. apply rows_fmap. Qed.

Lemma cols_binarize src : cols (binarize src) = cols src.
Proof. apply cols_fmap. Qed.

Lemma rectangular_binarize src : rectangular src -> rectangular (binarize src).
Proof. apply rectangular_fmap. Qed.

(** On a rectangular image border following always finishes within its
    budget. *)
Lemma findContours_total (src : image1) :
  rectangular src -> exists contours, findContours src = Ok contours.
Proof.
  intros Hrect. unfold findContours.
  destruct (scan_total (binarize src) (follow_budget src)
              (raster (rows src) (cols src)) (binarize src) 2 []) as [st ->].
  - by apply rectangular_binarize.
  - apply same_support_refl.
  - unfold follow_budget. by rewrite rows_binarize, cols_binarize.
  - done.
  - constructor.
  - by eexists.
Qed.

(** Every contour has a point, and every point is a cell of the image. *)
Lemma findContours_inside (src : image1) contours :
  rectangular src -> findContours src = Ok contours ->
  Forall (fun c : contour => c <> [] /\
            Forall (fun p => 0 <= p.1 < cols src /\ 0 <= p.2 < rows src) c) contours.
Proof.
  intros Hrect. unfold findContours.
  destruct (scan _ _ _) as [st|] eqn:Es; [|done]. intros [= <-].
  destruct st as [[img nbd] acc].
  apply scan_spec with (img0 := binarize src) in Es;
    [|apply same_support_refl|done|constructor].
  simpl in *. apply Forall_forall. intros c Hc%list_elem_of_In%in_rev%list_elem_of_In.
  eapply Forall_forall in Es as [Hne Hpts]; [|exact Hc]. split; [done|].
  eapply Forall_impl; [exact Hpts|]. intros p Hp. simpl in Hp.
  apply px_inside in Hp; [|by apply rectangular_binarize].
  by rewrite rows_binarize, cols_binarize in Hp.
Qed.

(** ** The stages of the loop body *)

Lemma sized_tabulate {A : Type} h w (f : Z -> Z -> A) :
  0 < h -> 0 <= w -> sized (tabulate h w f) h w.
Proof.
  intros Hh Hw. split; [by apply rectangular_tabulate|].
  split; [apply rows_tabulate; lia|by apply cols_tabulate].
Qed.

Lemma sized_fmap {A B : Type} (g : A -> B) (m : list (list A)) h w :
  sized m h w -> sized ((fun row : list A => g <$> row) <$> m) h w.
Proof.
  intros (Hr & <- & <-). split; [by apply rectangular_fmap|].
  split; [apply rows_fmap|apply cols_fmap].
Qed.

Lemma absdiff_Ok src1 src2 diff :
  Cv.absdiff src1 src2 = Ok diff ->
  rows src1 = rows src2 /\ cols src1 = cols src2 /\
  rows diff = rows src1 /\ cols diff = cols src1.
Proof.
  unfold Cv.absdiff.
  destruct (Z.eqb_spec (rows src1) (rows src2)) as [Hr|]; [|done].
  destruct (Z.eqb_spec (cols src1) (cols src2)) as [Hc|]; [|done]. simpl.
  intros [= <-]. split; [done|]. split; [done|]. unfold rows, cols in *. split.
  - rewrite length_zip_with. lia.
  - destruct src1 as [|r1 t1], src2 as [|r2 t2]; simpl in *; try done.
    rewrite length_zip_with. lia.
Qed.

Lemma absdiff_Raise src1 src2 e : Cv.absdiff src1 src2 = Raise e -> e = cv2_error.
Proof. unfold Cv.absdiff. by destruct (_ && _); intros [=]. Qed.

Lemma cvtColor_Ok src gray :
  Cv.cvtColor src = Ok gray ->
  0 < rows src /\ 0 < cols src /\ rows gray = rows src /\ cols gray = cols src.
Proof.
  unfold Cv.cvtColor.
  destruct (Z.eqb_spec (rows src) 0) as [|Hr]; [done|].
  destruct (Z.eqb_spec (cols src) 0) as [|Hc]; [done|]. simpl.
  intros [= <-]. rewrite rows_fmap, cols_fmap.
  assert (0 <= rows src) by (unfold rows; lia).
  assert (0 <= cols src) by (unfold cols; destruct src; lia). lia.
Qed.

Lemma cvtColor_Raise src e : Cv.cvtColor src = Raise e -> e = cv2_error.
Proof. unfold Cv.cvtColor. by destruct (_ || _); intros [=]. Qed.

Lemma hline_sized (src : image1) :
  0 < rows src -> 0 < cols src -> sized (Cv.hline src) (rows src) (cols src).
Proof. intros. unfold Cv.hline. apply sized_tabulate; lia. Qed.

Lemma vline_sized (src : image1) :
  0 < rows src -> 0 < cols src -> sized (Cv.vline src) (rows src) (cols src).
Proof. intros. unfold Cv.vline. apply sized_tabulate; lia. Qed.

Lemma GaussianBlur_sized (src : image1) :
  0 < rows src -> 0 < cols src -> sized (Cv.GaussianBlur src) (rows src) (cols src).
Proof.
  intros Hr Hc. unfold Cv.GaussianBlur.
  destruct (hline_sized src Hr Hc) as (_ & Hr' & Hc').
  pose proof (vline_sized (Cv.hline src)) as Hv.
  rewrite Hr', Hc' in Hv. by apply Hv.
Qed.

Lemma dilate1_sized (src : image1) :
  0 < rows src -> 0 < cols src -> sized (Cv.dilate1 src) (rows src) (cols src).
Proof. intros. unfold Cv.dilate1. apply sized_tabulate; lia. Qed.

Lemma dilate_sized (src : image1) (n : nat) h w :
  0 < h -> 0 < w -> sized src h w -> sized (Cv.dilate src n) h w.
Proof.
  intros Hh Hw Hs. unfold Cv.dilate. induction n as [|n IH]; simpl; [done|].
  destruct IH as (_ & Hr & Hc).
  pose proof (dilate1_sized (Nat.iter n Cv.dilate1 src)) as Hd.
  rewrite Hr, Hc in Hd. by apply Hd.
Qed.

Lemma blurred_Ok src1 src2 blur :
  blurred src1 src2 = Ok blur ->
  rows src1 = rows src2 /\ cols src1 = cols src2 /\
  0 < rows src1 /\ 0 < cols src1 /\ sized blur (rows src1) (cols src1).
Proof.
  unfold blurred.
  destruct (Cv.absdiff src1 src2) as [diff| |] eqn:Ed; simpl; [|done..].
  destruct (Cv.cvtColor diff) as [gray| |] eqn:Eg; simpl; [|done..].
  intros [= <-].
  apply absdiff_Ok in Ed as (? & ? & Hr & Hc).
  apply cvtColor_Ok in Eg as (? & ? & Hr' & Hc').
  rewrite <- Hr, <- Hc, <- Hr', <- Hc'.
  repeat split; try lia. all: apply GaussianBlur_sized; lia.
Qed.

Lemma blurred_Raise src1 src2 e : blurred src1 src2 = Raise e -> e = cv2_error.
Proof.
  unfold blurred.
  destruct (Cv.absdiff src1 src2) as [diff| |] eqn:Ed; simpl;
    [|by intros [= <-]; eapply absdiff_Raise|done].
  destruct (Cv.cvtColor diff) as [gray| |] eqn:Eg; simpl;
    [done|by intros [= <-]; eapply cvtColor_Raise|done].
Qed.

Lemma blurred_not_OutOfFuel src1 src2 : blurred src1 src2 <> OutOfFuel.
Proof.
  unfold blurred, Cv.absdiff, Cv.cvtColor.
  destruct (_ && _); simpl; [|done]. by destruct (_ || _).
Qed.

Lemma motion_mask_Ok src1 src2 thresh :
  motion_mask src1 src2 = Ok thresh ->
  exists blur, blurred src1 src2 = Ok blur /\ thresh = (Cv.threshold blur 20 255).2.
Proof.
  unfold motion_mask. destruct (blurred src1 src2); simpl; [|done..].
  intros [= <-]. by eexists.
Qed.

(** The image handed to [findContours] has the size of the frames. *)
Lemma dilated_sized src1 src2 thresh :
  motion_mask src1 src2 = Ok thresh ->
  0 < rows src1 /\ 0 < cols src1 /\
  sized (Cv.dilate thresh 3) (rows src1) (cols src1).
Proof.
  intros (blur & Hb & ->)%motion_mask_Ok.
  apply blurred_Ok in Hb as (_ & _ & Hr & Hc & Hs).
  split; [done|]. split; [done|].
  apply dilate_sized; [done..|]. by apply sized_fmap.
Qed.

(** The loop body never exhausts the budget of border following, and the
    only exception it raises is OpenCV's. *)
Lemma motion_contours_cases src1 src2 :
  (exists contours, motion_contours src1 src2 = Ok contours) \/
  motion_contours src1 src2 = Raise cv2_error.
Proof.
  unfold motion_contours.
  destruct (motion_mask src1 src2) as [thresh|e|] eqn:Em; simpl.
  - left. apply dilated_sized in Em as (_ & _ & Hs & _).
    by apply findContours_total.
  - right. f_equal. unfold motion_mask in Em.
    destruct (blurred src1 src2) eqn:Eb; simpl in Em; [done| |done].
    injection Em as <-. by eapply blurred_Raise.
  - exfalso. unfold motion_mask in Em.
    destruct (blurred src1 src2) eqn:Eb; simpl in Em; [done..|].
    by eapply blurred_not_OutOfFuel.
Qed.

(** ** The contour loop and the loop body *)

Lemma alter_alter {A : Type} (f g : A -> A) (i : nat) (l : list A) :
  alter f i (alter g i l) = alter (fun a => f (g a)) i l.
Proof.
  revert i. induction l as [|a l IH]; intros [|i]; simpl; [done..|].
  f_equal. apply IH.
Qed.

Lemma deref_alter_eq (f : image3 -> image3) (l : loc) (hp : heap) :
  deref (alter f l hp) l = match hp !! l with Some a => f a | None => [] end.
Proof. unfold deref. rewrite list_lookup_alter_eq. by destruct (hp !! l). Qed.

Lemma deref_alter_ne (f : image3 -> image3) (l l' : loc) (hp : heap) :
  l <> l' -> deref (alter f l hp) l' = deref hp l'.
Proof. intros. unfold deref. by rewrite list_lookup_alter_ne. Qed.

Lemma rectangles_box_events cs : rectangles (box_events cs) = Cv.boundingRect <$> cs.
Proof. induction cs as [|c cs IH]; simpl; [done|]. by f_equal. Qed.

Lemma labels_box_events cs : labels (box_events cs) = (fun _ => status_label) <$> cs.
Proof. induction cs as [|c cs IH]; simpl; [done|]. by f_equal. Qed.

Lemma written_box_events cs : written (box_events cs) = [].
Proof. induction cs as [|c cs IH]; simpl; done. Qed.

Lemma absdiffs_box_events cs : absdiffs (box_events cs) = [].
Proof. induction cs as [|c cs IH]; simpl; done. Qed.

Lemma box_events_app cs1 cs2 : box_events (cs1 ++ cs2) = box_events cs1 ++ box_events cs2.
Proof. unfold box_events. apply flat_map_app. Qed.

Lemma rectangles_app l1 l2 : rectangles (l1 ++ l2) = rectangles l1 ++ rectangles l2.
Proof. apply omap_app. Qed.

Lemma labels_app l1 l2 : labels (l1 ++ l2) = labels l1 ++ labels l2.
Proof. apply omap_app. Qed.

Lemma written_app l1 l2 : written (l1 ++ l2) = written l1 ++ written l2.
Proof. apply omap_app. Qed.

Lemma absdiffs_app l1 l2 : absdiffs (l1 ++ l2) = absdiffs l1 ++ absdiffs l2.
Proof. apply omap_app. Qed.

(** The events of one round of the loop body, by kind. *)
Lemma rectangles_iteration a b cs image img :
  rectangles (EvAbsdiff a b :: box_events cs ++ [EvWrite image; EvImshow img])
  = Cv.boundingRect <$> cs.
Proof.
  change (EvAbsdiff a b :: ?l) with ([EvAbsdiff a b] ++ l).
  rewrite !rectangles_app, rectangles_box_events. simpl. apply app_nil_r.
Qed.

Lemma labels_iteration a b cs image img :
  labels (EvAbsdiff a b :: box_events cs ++ [EvWrite image; EvImshow img])
  = (fun _ => status_label) <$> cs.
Proof.
  change (EvAbsdiff a b :: ?l) with ([EvAbsdiff a b] ++ l).
  rewrite !labels_app, labels_box_events. simpl. apply app_nil_r.
Qed.

Lemma written_iteration a b cs image img :
  written (EvAbsdiff a b :: box_events cs ++ [EvWrite image; EvImshow img]) = [image].
Proof.
  change (EvAbsdiff a b :: ?l) with ([EvAbsdiff a b] ++ l).
  by rewrite !written_app, written_box_events.
Qed.

Lemma absdiffs_iteration a b cs image img :
  absdiffs (EvAbsdiff a b :: box_events cs ++ [EvWrite image; EvImshow img]) = [(a, b)].
Proof.
  change (EvAbsdiff a b :: ?l) with ([EvAbsdiff a b] ++ l).
  by rewrite !absdiffs_app, absdiffs_box_events.
Qed.

Section Body.
Context `{Drawing}.

Lemma contour_step_eq minArea l1 hp evs c :
  contour_step minArea l1 (hp, evs) c =
  if survives minArea c
  then (alter (fun img => draw_box img c) l1 hp, evs ++ box_events [c])
  else (hp, evs).
Proof.
  unfold contour_step, survives, draw_box.
  destruct (Qltb _ _); simpl; [done|].
  destruct (Cv.boundingRect c) as [[[x y] w] h]. simpl.
  by rewrite alter_alter.
Qed.

(** The contour loop draws the surviving boxes, in order, on the array
    [frame1] names, and touches nothing else. *)
Lemma contour_loop minArea l1 cs : forall hp evs,
  foldl (contour_step minArea l1) (hp, evs) cs =
  (alter (fun img => annotate minArea img cs) l1 hp,
   evs ++ box_events (List.filter (survives minArea) cs)).
Proof.
  unfold annotate. induction cs as [|c cs IH]; intros hp evs; simpl.
  - rewrite app_nil_r. f_equal. symmetry. by apply list_alter_id.
  - rewrite contour_step_eq. destruct (survives minArea c); simpl.
    + rewrite IH, alter_alter. f_equal. by rewrite <- app_assoc.
    + apply IH.
Qed.

Lemma body_eq minArea hp l1 l2 :
  body minArea hp (Some l1) (Some l2) =
  (contours <- motion_contours (deref hp l1) (deref hp l2);
   let hp' := alter (fun img => annotate minArea img contours) l1 hp in
   Ok (hp', EvAbsdiff (deref hp l1) (deref hp l2)
            :: box_events (List.filter (survives minArea) contours)
            ++ [EvWrite (resize (deref hp' l1) (1280, 720)); EvImshow (deref hp' l1)])).
Proof.
  unfold body. destruct (motion_contours _ _) as [contours| |]; simpl; [|done..].
  rewrite contour_loop. simpl. done.
Qed.

Lemma body_Ok minArea hp l1 l2 hp' evs :
  body minArea hp (Some l1) (Some l2) = Ok (hp', evs) ->
  exists contours,
    motion_contours (deref hp l1) (deref hp l2) = Ok contours /\
    hp' = alter (fun img => annotate minArea img contours) l1 hp /\
    evs = EvAbsdiff (deref hp l1) (deref hp l2)
          :: box_events (List.filter (survives minArea) contours)
          ++ [EvWrite (resize (deref hp' l1) (1280, 720)); EvImshow (deref hp' l1)].
Proof.
  rewrite body_eq. destruct (motion_contours _ _) as [contours| |]; simpl; [|done..].
  intros [= <- <-]. by exists contours.
Qed.

Lemma body_rectangles minArea hp l1 l2 hp' evs :
  body minArea hp (Some l1) (Some l2) = Ok (hp', evs) ->
  exists contours,
    motion_contours (deref hp l1) (deref hp l2) = Ok contours /\
    rectangles evs = Cv.boundingRect <$> List.filter (survives minArea) contours /\
    labels evs = (fun _ => status_label) <$> List.filter (survives minArea) contours.
Proof.
  intros (contours & Hc & _ & ->)%body_Ok. exists contours. split; [done|].
  by rewrite rectangles_iteration, labels_iteration.
Qed.

End Body.

(** ** Area filter *)

Lemma Qltb_lt a b : Qltb a b = true <-> (a < b)%Q.
Proof.
  unfold Qltb. rewrite negb_true_iff. split.
  - intros Hf. apply Qnot_le_lt. intros Hle%Qle_bool_iff. congruence.
  - intros Hlt. destruct (Qle_bool b a) eqn:E; [|done].
    apply Qle_bool_iff in E. by apply Qlt_not_le in Hlt.
Qed.

Lemma survives_le minArea c :
  survives minArea c = true <-> (inject_Z minArea <= Cv.contourArea c)%Q.
Proof.
  unfold survives, Qltb. rewrite negb_involutive. apply Qle_bool_iff.
Qed.

Lemma survives_mono m1 m2 c :
  m1 <= m2 -> survives m2 c = true -> survives m1 c = true.
Proof.
  intros Hm H2. apply survives_le. apply survives_le in H2.
  eapply Qle_trans; [|exact H2]. by rewrite <- Zle_Qle.
Qed.

Lemma filter_length_mono {A : Type} (p q : A -> bool) (l : list A) :
  (forall a, p a = true -> q a = true) ->
  (length (List.filter p l) <= length (List.filter q l))%nat.
Proof.
  intros Hpq. induction l as [|a l IH]; simpl; [done|].
  destruct (p a) eqn:Ep.
  - rewrite (Hpq a Ep). simpl. lia.
  - destruct (q a); simpl; lia.
Qed.

(** ** Bounding boxes *)

Lemma fold_min_bounds (d : Z) (l : list Z) lo hi :
  lo <= d <= hi -> Forall (fun v => lo <= v <= hi) l ->
  lo <= fold_right Z.min d l <= d.
Proof.
  intros Hd Hl. induction Hl as [|v l Hv Hl IH]; simpl; lia.
Qed.

Lemma fold_max_bounds (d : Z) (l : list Z) lo hi :
  lo <= d <= hi -> Forall (fun v => lo <= v <= hi) l ->
  d <= fold_right Z.max d l <= hi.
Proof.
  intros Hd Hl. induction Hl as [|v l Hv Hl IH]; simpl; lia.
Qed.

(** The box of a non-empty contour inside a [w x h] image is a non-empty box
    inside the image. *)
Lemma boundingRect_inside (c : contour) (w h : Z) :
  c <> [] -> Forall (fun p => 0 <= p.1 < w /\ 0 <= p.2 < h) c ->
  let '(x, y, bw, bh) := Cv.boundingRect c in
  0 < bw /\ 0 < bh /\ 0 <= x /\ x + bw <= w /\ 0 <= y /\ y + bh <= h.
Proof.
  intros Hne Hc. destruct c as [|p l]; [done|]. clear Hne.
  apply Forall_cons in Hc as [[Hpx Hpy] Hl]. unfold Cv.boundingRect.
  assert (Forall (fun v => 0 <= v <= w - 1) (fst <$> l)) as Hxs.
  { apply Forall_fmap. eapply Forall_impl; [exact Hl|]. intros q [? ?]. simpl. lia. }
  assert (Forall (fun v => 0 <= v <= h - 1) (snd <$> l)) as Hys.
  { apply Forall_fmap. eapply Forall_impl; [exact Hl|]. intros q [? ?]. simpl. lia. }
  pose proof (fold_min_bounds p.1 _ 0 (w - 1) ltac:(lia) Hxs).
  pose proof (fold_max_bounds p.1 _ 0 (w - 1) ltac:(lia) Hxs).
  pose proof (fold_min_bounds p.2 _ 0 (h - 1) ltac:(lia) Hys).
  pose proof (fold_max_bounds p.2 _ 0 (h - 1) ltac:(lia) Hys).
  lia.
Qed.

(** ** Thresholding a cell *)

Lemma cell_fmap {A B : Type} (g : A -> B) d (m : list (list A)) y x :
  cell (g d) ((fun row : list A => g <$> row) <$> m) y x = g (cell d m y x).
Proof.
  unfold cell. destruct ((y <? 0) || (x <? 0)); [done|].
  rewrite list_lookup_fmap. destruct (m !! Z.to_nat y) as [r|]; simpl; [|done].
  rewrite list_lookup_fmap. by destruct (r !! Z.to_nat x).
Qed.

Lemma at1_threshold (src : image1) (thresh maxval : Z) y x :
  0 <= thresh ->
  at1 (Cv.threshold src thresh maxval).2 y x = Cv.threshold_px thresh maxval (at1 src y x).
Proof.
  intros Ht.
  assert (Cv.threshold_px thresh maxval 0 = 0) as E.
  { unfold Cv.threshold_px. by destruct (Z.ltb_spec thresh 0); [lia|]. }
  unfold at1. rewrite <- (cell_fmap (Cv.threshold_px thresh maxval) 0 src y x).
  by rewrite E.
Qed.

Section Pipeline.
Context `{Drawing}.

Lemma motion_mask_self (f : image3) :
  0 < rows f -> 0 < cols f ->
  exists thresh, motion_mask f f = Ok thresh /\ all_zero thresh.
Proof.
  intros Hr Hc. unfold motion_mask, blurred. rewrite absdiff_self. simpl.
  destruct (cvtColor_zero _ (absdiff_self_zero f)) as (gray & -> & Hg).
  - by rewrite rows_fmap.
  - by rewrite cols_fmap.
  - simpl. eexists. split; [done|].
    apply (threshold_zero _ 20 255); [lia|]. by apply GaussianBlur_zero.
Qed.

Lemma motion_contours_self (f : image3) :
  0 < rows f -> 0 < cols f -> motion_contours f f = Ok [].
Proof.
  intros Hr Hc. unfold motion_contours.
  destruct (motion_mask_self f Hr Hc) as (thresh & -> & Hz). cbn [bind].
  by apply findContours_zero, dilate_zero.
Qed.

(** C1. When both frames hold the same pixels, the difference is all zero,
    the mask after blur and threshold is all zero, and the body draws
    nothing: no rectangle, no label, the store is as it was. *)
Theorem identical_frames_no_motion (minArea : Z) (hp : heap) (l1 l2 : loc) (f : image3) :
  deref hp l1 = f -> deref hp l2 = f -> 0 < rows f -> 0 < cols f ->
  (exists diff, Cv.absdiff f f = Ok diff /\ all_zero3 diff) /\
  (exists thresh, motion_mask f f = Ok thresh /\ all_zero thresh) /\
  (exists evs, body minArea hp (Some l1) (Some l2) = Ok (hp, evs) /\
               rectangles evs = [] /\ labels evs = []).
Proof.
  intros Hf1 Hf2 Hr Hc. split; [|split].
  - eexists. split; [apply absdiff_self|apply absdiff_self_zero].
  - by apply motion_mask_self.
  - rewrite body_eq, Hf1, Hf2, motion_contours_self by done. simpl.
    unfold annotate. simpl. rewrite list_alter_id by done.
    eexists. split; [done|]. done.
Qed.

(** C2, as amended. [THRESH_BINARY] is strict: a cell of the blurred
    difference becomes 255 when it is greater than 20 and 0 otherwise, so a
    cell that is exactly 20 becomes 0. *)
Theorem threshold_is_strict (src1 src2 : image3) (blur : image1) :
  blurred src1 src2 = Ok blur ->
  exists thresh, motion_mask src1 src2 = Ok thresh /\
    (forall y x, at1 thresh y x = if 20 <? at1 blur y x then 255 else 0) /\
    (forall y x, at1 blur y x = 20 -> at1 thresh y x = 0).
Proof.
  intros Hb. unfold motion_mask. rewrite Hb. simpl. eexists. split; [done|].
  assert (forall y x, at1 (Cv.threshold blur 20 255).2 y x
                      = if 20 <? at1 blur y x then 255 else 0) as Hcell.
  { intros y x. by rewrite at1_threshold by lia. }
  split; [done|]. intros y x E. by rewrite Hcell, E.
Qed.

(** C3. A contour whose area is below [minArea] leaves the store and the
    trace as they were; the rectangles drawn are the boxes of the contours
    with area at least [minArea]; and with a lower [minArea] the same frames
    give at least as many rectangles. *)
Theorem area_filter_monotone (minArea lower : Z) (hp : heap) (l1 l2 : loc)
    (hp1 hp2 : heap) (evs1 evs2 : list event) :
  lower <= minArea ->
  body minArea hp (Some l1) (Some l2) = Ok (hp1, evs1) ->
  body lower hp (Some l1) (Some l2) = Ok (hp2, evs2) ->
  (forall c st, (Cv.contourArea c < inject_Z minArea)%Q ->
                contour_step minArea l1 st c = st) /\
  (exists contours,
     motion_contours (deref hp l1) (deref hp l2) = Ok contours /\
     rectangles evs1 = Cv.boundingRect <$>
       List.filter (fun c => Qle_bool (inject_Z minArea) (Cv.contourArea c)) contours) /\
  (length (rectangles evs1) <= length (rectangles evs2))%nat.
Proof.
  intros Hle H1 H2. split; [|split].
  - intros c st Hc%Qltb_lt. unfold contour_step. by rewrite Hc.
  - apply body_rectangles in H1 as (contours & Hc & Hr & _).
    exists contours. split; [done|]. rewrite Hr. f_equal.
    apply filter_ext. intros c. unfold survives, Qltb. apply negb_involutive.
  - apply body_rectangles in H1 as (contours & Hc & -> & _).
    apply body_rectangles in H2 as (contours' & Hc' & -> & _).
    rewrite Hc in Hc'. injection Hc' as <-.
    rewrite !length_fmap. apply filter_length_mono.
    intros c. by apply survives_mono.
Qed.

Lemma square_contours :
  motion_contours (black 100 100) (white_square 100 100 10 10 50)
  = Ok [[(6, 6); (6, 63); (63, 63); (63, 6)]].
Proof. vm_compute. reflexivity. Qed.

(** C4. Two black 100x100 frames, the second with a white 50x50 square at
    (10, 10): the body draws exactly one rectangle, (6, 6, 58, 58). Each of
    its edges is within 5 cells of the square's: 2 for the reach of the 5x5
    blur and 3 for the three dilations. *)
Theorem square_scenario :
  exists hp' evs,
    body 800 [black 100 100; white_square 100 100 10 10 50] (Some 0%nat) (Some 1%nat)
      = Ok (hp', evs) /\
    rectangles evs = [(6, 6, 58, 58)] /\
    within_tolerance (2 + 3) (6, 6, 58, 58) (10, 10, 50, 50).
Proof.
  pose proof square_contours as Hc.
  set (hp := [black 100 100; white_square 100 100 10 10 50]).
  assert (deref hp 0%nat = black 100 100) as E0 by reflexivity.
  assert (deref hp 1%nat = white_square 100 100 10 10 50) as E1 by reflexivity.
  rewrite body_eq, E0, E1, Hc. cbn [bind].
  eexists _, _. split; [reflexivity|].
  split; [|unfold within_tolerance; lia].
  rewrite rectangles_iteration. by vm_compute.
Qed.

(** C5. Every rectangle the body draws has positive width and height and
    lies within the frame. *)
Theorem rectangles_inside_frame (minArea : Z) (hp : heap) (l1 l2 : loc)
    (hp' : heap) (evs : list event) (x y w h : Z) :
  body minArea hp (Some l1) (Some l2) = Ok (hp', evs) ->
  In (x, y, w, h) (rectangles evs) ->
  0 < w /\ 0 < h /\
  0 <= x /\ x + w <= cols (deref hp l1) /\ 0 <= y /\ y + h <= rows (deref hp l1).
Proof.
  intros Hb Hin.
  apply body_rectangles in Hb as (contours & Hc & Hr & _). rewrite Hr in Hin.
  apply list_elem_of_In, list_elem_of_fmap in Hin as (c & Hbox & Hin).
  apply list_elem_of_In, filter_In in Hin as [Hin _].
  unfold motion_contours in Hc.
  destruct (motion_mask _ _) as [thresh| |] eqn:Em; cbn [bind] in Hc; [|done..].
  apply dilated_sized in Em as (_ & _ & Hrect & Hrows & Hcols).
  apply findContours_inside in Hc; [|done].
  eapply Forall_forall in Hc as [Hne Hpts]; [|by apply list_elem_of_In].
  rewrite Hrows, Hcols in Hpts.
  pose proof (boundingRect_inside c _ _ Hne Hpts) as Hbr.
  by rewrite <- Hbox in Hbr.
Qed.

End Pipeline.

Lemma motion_contours_Ok src1 src2 contours :
  motion_contours src1 src2 = Ok contours ->
  rows src1 = rows src2 /\ cols src1 = cols src2 /\ 0 < rows src1 /\ 0 < cols src1.
Proof.
  unfold motion_contours.
  destruct (motion_mask src1 src2) as [thresh| |] eqn:Em; cbn [bind]; [|done..].
  intros _. apply motion_mask_Ok in Em as (blur & Hb & _).
  apply blurred_Ok in Hb. tauto.
Qed.

Lemma rows_nonneg {A : Type} (m : list (list A)) : 0 <= rows m.
Proof. unfold rows. lia. Qed.

Lemma cols_nonneg {A : Type} (m : list (list A)) : 0 <= cols m.
Proof. unfold cols. destruct m; lia. Qed.

Lemma blurred_returns src1 src2 :
  rows src1 = rows src2 -> cols src1 = cols src2 -> 0 < rows src1 -> 0 < cols src1 ->
  exists blur, blurred src1 src2 = Ok blur.
Proof.
  intros Er Ec Hr Hc. unfold blurred.
  destruct (Cv.absdiff src1 src2) as [diff| |] eqn:Ea.
  - cbn [bind]. apply absdiff_Ok in Ea as (_ & _ & Hr' & Hc').
    unfold Cv.cvtColor. rewrite Hr', Hc'.
    destruct (Z.eqb_spec (rows src1) 0); [lia|].
    destruct (Z.eqb_spec (cols src1) 0); [lia|].
    cbn [orb bind]. by eexists.
  - exfalso. unfold Cv.absdiff in Ea. by rewrite Er, Ec, !Z.eqb_refl in Ea.
  - exfalso. unfold Cv.absdiff in Ea. by rewrite Er, Ec, !Z.eqb_refl in Ea.
Qed.

(** On two frames of the same size, not empty, the stages up to
    [findContours] return. *)
Lemma motion_contours_returns src1 src2 :
  rows src1 = rows src2 -> cols src1 = cols src2 -> 0 < rows src1 -> 0 < cols src1 ->
  exists contours, motion_contours src1 src2 = Ok contours.
Proof.
  intros Er Ec Hr Hc. destruct (blurred_returns src1 src2) as [blur Hb]; [done..|].
  assert (motion_mask src1 src2 = Ok (Cv.threshold blur 20 255).2) as Hm.
  { unfold motion_mask. by rewrite Hb. }
  unfold motion_contours. rewrite Hm. cbn [bind].
  apply findContours_total. by apply dilated_sized in Hm as (_ & _ & ? & _).
Qed.

Lemma deref_nonempty (hp : heap) (l : loc) :
  0 < rows (deref hp l) -> hp !! l = Some (deref hp l).
Proof. unfold deref. by destruct (hp !! l). Qed.

Lemma box_events_boxes cs :
  flat_map (fun r =>
    [EvRectangle r;
     EvPutText "Status: Movement" (10, 20) Cv.FONT_HERSHEY_SIMPLEX 1 (0, 0, 255) 3])
    (Cv.boundingRect <$> cs)
  = box_events cs.
Proof.
  induction cs as [|c cs IH]; [done|].
  rewrite fmap_cons. cbn [flat_map box_events app]. by rewrite IH.
Qed.

Section Outcomes.
Context `{Drawing}.

Lemma body_frames minArea hp frame1 frame2 r :
  body minArea hp frame1 frame2 = Ok r ->
  exists l1 l2, frame1 = Some l1 /\ frame2 = Some l2.
Proof. destruct frame1, frame2; try done. intros _. by eexists _, _. Qed.

(** What one round of the loop body does to the store. *)
Lemma body_store minArea hp l1 l2 hp' evs :
  body minArea hp (Some l1) (Some l2) = Ok (hp', evs) ->
  length hp' = length hp /\
  (forall l, l <> l1 -> hp' !! l = hp !! l) /\
  hp !! l1 = Some (deref hp l1) /\
  exists contours,
    motion_contours (deref hp l1) (deref hp l2) = Ok contours /\
    deref hp' l1 = annotate minArea (deref hp l1) contours.
Proof.
  intros (contours & Hc & -> & _)%body_Ok.
  pose proof (motion_contours_Ok _ _ _ Hc) as (_ & _ & Hr & _).
  apply deref_nonempty in Hr.
  split; [apply length_alter|]. split; [|split; [done|]].
  - intros l Hl. by apply list_lookup_alter_ne.
  - exists contours. split; [done|]. by rewrite deref_alter_eq, Hr.
Qed.

(** C6. The outcome of the body depends on the pixels of the two frames
    only: two stores that hold the same pixels under [frame1] and under
    [frame2] give the same calls, with the same rectangles and the same
    frame written, and leave the same annotated pixels under [frame1]. *)
Theorem body_deterministic (minArea : Z) (hp hp' : heap) (l1 l2 m1 m2 : loc) :
  deref hp l1 = deref hp' m1 -> deref hp l2 = deref hp' m2 ->
  match body minArea hp (Some l1) (Some l2), body minArea hp' (Some m1) (Some m2) with
  | Ok r, Ok r' => r.2 = r'.2 /\ deref r.1 l1 = deref r'.1 m1
  | Raise e, Raise e' => e = e'
  | OutOfFuel, OutOfFuel => True
  | _, _ => False
  end.
Proof.
  intros E1 E2.
  destruct (body minArea hp (Some l1) (Some l2)) as [[hp1 evs1]|e|] eqn:Eb.
  - pose proof (body_store _ _ _ _ _ _ Eb) as (_ & _ & _ & contours & Hc & Hd).
    apply body_Ok in Eb as (contours' & Hc' & -> & ->).
    rewrite Hc in Hc'. injection Hc' as <-.
    rewrite body_eq, <- E1, <- E2, Hc. cbn [bind].
    assert (deref (alter (fun img => annotate minArea img contours) m1 hp') m1
            = annotate minArea (deref hp l1) contours) as Hd'.
    { rewrite deref_alter_eq.
      pose proof (motion_contours_Ok _ _ _ Hc) as (_ & _ & Hr & _).
      rewrite E1 in Hr. apply deref_nonempty in Hr. by rewrite Hr, E1. }
    cbn [fst snd]. rewrite Hd, Hd'. done.
  - rewrite body_eq in Eb |- *. rewrite <- E1, <- E2.
    destruct (motion_contours _ _); cbn [bind] in *; try done. by injection Eb.
  - rewrite body_eq in Eb |- *. rewrite <- E1, <- E2.
    by destruct (motion_contours _ _); cbn [bind] in *.
Qed.

(** C7, as amended. The label is drawn once for every rectangle, right
    after it: as many times as rectangles are drawn, hence at least once
    exactly when some rectangle is drawn, and not at all when none is.
    Every one of these calls has the same text, position, font, scale,
    colour and thickness; and the array [frame1] names holds, after the
    body, the frame with each rectangle outlined and the label drawn over
    it, in turn. *)
Theorem label_per_rectangle (minArea : Z) (hp : heap) (l1 l2 : loc)
    (hp' : heap) (evs : list event) :
  body minArea hp (Some l1) (Some l2) = Ok (hp', evs) ->
  length (labels evs) = length (rectangles evs) /\
  (labels evs <> [] <-> rectangles evs <> []) /\
  Forall (fun l => l = ("Status: Movement", (10, 20), Cv.FONT_HERSHEY_SIMPLEX, 1,
                        (0, 0, 255), 3)) (labels evs) /\
  (exists a b image img,
    evs = EvAbsdiff a b
          :: flat_map (fun r =>
               [EvRectangle r;
                EvPutText "Status: Movement" (10, 20) Cv.FONT_HERSHEY_SIMPLEX 1
                          (0, 0, 255) 3]) (rectangles evs)
          ++ [EvWrite image; EvImshow img]) /\
  deref hp' l1
  = foldl (fun img (r : rect) =>
             let '(x, y, w, h) := r in
             putText (rectangle img (x, y) (x + w, y + h) (0, 255, 0) 2)
                     "Status: Movement" (10, 20) Cv.FONT_HERSHEY_SIMPLEX 1 (0, 0, 255) 3)
          (deref hp l1) (rectangles evs).
Proof.
  intros Hb. pose proof (body_rectangles _ _ _ _ _ _ Hb) as (contours & Hcs & Hr & Hl).
  split; [|split; [|split; [|split]]].
  - by rewrite Hr, Hl, !length_fmap.
  - rewrite Hr, Hl. by destruct (List.filter _ contours).
  - rewrite Hl. apply Forall_fmap, Forall_forall. by intros c _.
  - apply body_Ok in Hb as (contours' & _ & _ & ->).
    rewrite rectangles_iteration, box_events_boxes. by eexists _, _, _, _.
  - pose proof (body_store _ _ _ _ _ _ Hb) as (_ & _ & _ & contours' & Hcs' & ->).
    rewrite Hcs in Hcs'. injection Hcs' as <-.
    rewrite Hr, foldl_fmap. done.
Qed.

(** C8. When a frame is missing, the frames differ in size, or they are
    empty, the body fails: the OpenCV call that meets them raises
    [cv2.error], the form an invalid-frame failure takes in the notebook,
    before anything is drawn or written. The body raises nothing else, and border
    following never runs out of its budget. *)
Theorem body_raises_cv2_error_only (minArea : Z) (hp : heap) (frame1 frame2 : option loc) :
  (invalid_frames hp frame1 frame2 ->
   body minArea hp frame1 frame2 = Raise cv2_error) /\
  (forall e, body minArea hp frame1 frame2 = Raise e -> e = cv2_error) /\
  body minArea hp frame1 frame2 <> OutOfFuel.
Proof.
  destruct frame1 as [l1|], frame2 as [l2|]; try (by repeat split; [intros ? [= <-]|]).
  rewrite body_eq.
  destruct (motion_contours_cases (deref hp l1) (deref hp l2)) as [[contours Hc]| ->].
  - rewrite Hc. cbn [bind]. split; [|done].
    intros Hinv. apply motion_contours_Ok in Hc. unfold invalid_frames in Hinv. lia.
  - cbn [bind]. split; [done|]. split; [by intros e [= <-]|done].
Qed.

(** What a run adds to the trace: as many frames written as differences
    taken, each of them a resize to 1280x720. *)
Lemma loop_written opened : forall frames keys st st',
  loop opened frames keys st = Ok st' ->
  exists evs,
    trace st' = trace st ++ evs /\
    length (written evs) = length (absdiffs evs) /\
    Forall (fun image => exists img, image = resize img (1280, 720)) (written evs).
Proof.
  induction frames as [|f frames IH]; intros keys st st'; cbn [loop].
  - destruct (opened && ret st).
    + destruct (body 800 _ _ _) as [[hp' evs]| |] eqn:Eb; cbn [bind]; [|done..].
      intros [= <-]. exists evs. split; [done|].
      destruct (body_frames _ _ _ _ _ Eb) as (l1 & l2 & E1 & E2).
      rewrite E1, E2 in Eb. apply body_Ok in Eb as (cs & _ & _ & ->).
      rewrite written_iteration, absdiffs_iteration. split; [done|].
      apply Forall_singleton. by eexists.
    + intros [= <-]. exists []. by rewrite app_nil_r.
  - destruct (opened && ret st).
    + destruct (body 800 _ _ _) as [[hp' evs]| |] eqn:Eb; cbn [bind]; [|done..].
      destruct (body_frames _ _ _ _ _ Eb) as (l1 & l2 & E1 & E2).
      rewrite E1, E2 in Eb. apply body_Ok in Eb as (cs & _ & _ & Hevs).
      assert (length (written evs) = length (absdiffs evs) /\
              Forall (fun image => exists img, image = resize img (1280, 720))
                     (written evs)) as [Hlen Hall].
      { rewrite Hevs, written_iteration, absdiffs_iteration. split; [done|].
        apply Forall_singleton. by eexists. }
      cbn [fst snd]. destruct (hd (-1) keys =? 27).
      * intros [= <-]. by exists evs.
      * intros (evs' & Ht & Hlen' & Hall')%IH. cbn [trace] in Ht.
        exists (evs ++ evs'). split; [by rewrite Ht, app_assoc|].
        rewrite written_app, absdiffs_app, !length_app. split; [lia|].
        by apply Forall_app.
    + intros [= <-]. exists []. by rewrite app_nil_r.
Qed.

(** Two frames of the same size, not empty, always get through the body. *)
Lemma body_returns minArea hp l1 l2 :
  ~ invalid_frames hp (Some l1) (Some l2) ->
  exists hp' evs, body minArea hp (Some l1) (Some l2) = Ok (hp', evs).
Proof.
  intros Hvalid. unfold invalid_frames in Hvalid.
  pose proof (rows_nonneg (deref hp l1)). pose proof (cols_nonneg (deref hp l1)).
  destruct (motion_contours_returns (deref hp l1) (deref hp l2)) as [cs Hc]; [lia..|].
  rewrite body_eq, Hc. cbn [bind]. by eexists _, _.
Qed.

(** C9. Each round of the loop body hands the encoder exactly one frame:
    [frame1] as the contour loop left it, resized to 1280x720, whether or
    not anything was drawn; and two frames of the same size, not empty,
    always get that far. Over a whole run, every frame written is a resize
    to 1280x720, and there are as many as rounds. *)
Theorem one_resized_frame_per_round :
  (forall minArea hp l1 l2,
     ~ invalid_frames hp (Some l1) (Some l2) ->
     exists hp' evs, body minArea hp (Some l1) (Some l2) = Ok (hp', evs)) /\
  (forall minArea hp l1 l2 hp' evs,
     body minArea hp (Some l1) (Some l2) = Ok (hp', evs) ->
     written evs = [resize (deref hp' l1) (1280, 720)] /\
     exists contours,
       motion_contours (deref hp l1) (deref hp l2) = Ok contours /\
       deref hp' l1 = annotate minArea (deref hp l1) contours) /\
  (forall opened frames keys st,
     run opened frames keys = Ok st ->
     length (written (trace st)) = length (absdiffs (trace st)) /\
     Forall (fun image => exists img, image = resize img (1280, 720))
            (written (trace st))).
Proof.
  split; [exact body_returns|]. split.
  - intros minArea hp l1 l2 hp' evs Hb.
    pose proof (body_store _ _ _ _ _ _ Hb) as (_ & _ & _ & Hann).
    split; [|done].
    apply body_Ok in Hb as (cs & _ & -> & ->). apply written_iteration.
  - intros opened frames keys st. unfold run.
    destruct (read opened [] frames) as [[[r1 f1] hp1] frames1].
    destruct (read opened hp1 frames1) as [[[r2 f2] hp2] frames2].
    destruct f1 as [l1|]; [|done].
    intros (evs & Ht & Hlen & Hall)%loop_written. cbn [trace] in Ht.
    rewrite Ht. done.
Qed.

End Outcomes.

Section Run.
Context `{Drawing}.

(** At the head of the loop the two variables name different arrays that
    hold two consecutive frames as the camera delivered them. *)
Lemma loop_absdiffs opened : forall rest keys st st' l1 l2 a b,
  frame1 st = Some l1 -> frame2 st = Some l2 -> l1 <> l2 ->
  store st !! l1 = Some a -> store st !! l2 = Some b ->
  loop opened rest keys st = Ok st' ->
  exists k : nat,
    absdiffs (trace st') = absdiffs (trace st) ++ take k (zip (a :: b :: rest) (b :: rest)).
Proof.
  induction rest as [|f rest IH]; intros keys st st' l1 l2 a b E1 E2 Hne Ha Hb;
    cbn [loop]; rewrite E1, E2.
  - destruct (opened && ret st); [|intros [= <-]; exists 0%nat; by rewrite app_nil_r].
    destruct (body 800 _ _ _) as [[hp' evs]| |] eqn:Eb; cbn [bind]; [|done..].
    intros [= <-]. cbn [trace fst snd]. exists 1%nat.
    apply body_Ok in Eb as (cs & _ & _ & ->).
    rewrite absdiffs_app, absdiffs_iteration. unfold deref. by rewrite Ha, Hb.
  - destruct (opened && ret st); [|intros [= <-]; exists 0%nat; by rewrite app_nil_r].
    destruct (body 800 _ _ _) as [[hp' evs]| |] eqn:Eb; cbn [bind]; [|done..].
    pose proof (body_store _ _ _ _ _ _ Eb) as (Hlen & Hother & _).
    apply body_Ok in Eb as (cs & _ & _ & Hevs).
    assert (absdiffs evs = [(a, b)]) as Habs.
    { rewrite Hevs, absdiffs_iteration. unfold deref. by rewrite Ha, Hb. }
    cbn [fst snd]. destruct (hd (-1) keys =? 27).
    + intros [= <-]. cbn [trace]. exists 1%nat. by rewrite absdiffs_app, Habs.
    + pose proof (lookup_lt_Some _ _ _ Hb) as Hl2.
      intros Hloop. eapply (IH _ _ _ l2 (length hp') b f) in Hloop as [k Hk].
      * exists (S k). cbn [trace] in Hk.
        rewrite Hk, absdiffs_app, Habs, <- app_assoc. done.
      * done.
      * done.
      * lia.
      * cbn [store]. rewrite lookup_app_l by lia. rewrite Hother by done. done.
      * cbn [store]. by rewrite list_lookup_middle.
Qed.

(** C10. Drawing goes to the array [frame1] names and to no other; and in a
    whole run every difference is taken between two consecutive frames
    exactly as the camera delivered them: no annotated frame is ever an
    input of [absdiff]. *)
Theorem annotations_never_feed_back :
  (forall minArea hp l1 l2 hp' evs l,
     body minArea hp (Some l1) (Some l2) = Ok (hp', evs) ->
     l <> l1 -> hp' !! l = hp !! l) /\
  (forall opened frames keys st,
     run opened frames keys = Ok st ->
     absdiffs (trace st) `prefix_of` zip frames (drop 1 frames)).
Proof.
  split.
  - intros minArea hp l1 l2 hp' evs l Hb Hl.
    pose proof (body_store _ _ _ _ _ _ Hb) as (_ & Hother & _). by apply Hother.
  - intros opened frames keys st. unfold run, read.
    destruct frames as [|f0 [|f1 rest]]; [done| |].
    + destruct opened; [|done]. cbn [loop andb ret]. intros [= <-]. apply prefix_nil.
    + destruct opened; [|done]. cbn [app length].
      intros Hloop.
      eapply (loop_absdiffs _ _ _ _ _ 0%nat 1%nat f0 f1) in Hloop as [k Hk]; try done.
      cbn [trace] in Hk. rewrite Hk. apply prefix_take.
Qed.

End Run.

(** ** The properties on concrete frames *)

Lemma small_scene_contours :
  motion_contours (deref small_scene 0%nat) (deref small_scene 1%nat)
  = Ok [[(0, 0); (0, 11); (11, 11); (11, 0)]].
Proof. vm_compute. reflexivity. Qed.

(** The body on the small scene, with the contour loop still to be run. *)
Lemma small_scene_body (minArea : Z) :
  exists hp' evs,
    body (H := Plain.drawing) minArea small_scene (Some 0%nat) (Some 1%nat) = Ok (hp', evs) /\
    rectangles evs = Cv.boundingRect <$>
      List.filter (survives minArea) [[(0, 0); (0, 11); (11, 11); (11, 0)]].
Proof.
  rewrite body_eq, small_scene_contours. cbn [bind].
  eexists _, _. split; [reflexivity|]. apply rectangles_iteration.
Defined.

Lemma identical_frames_no_motion_witness :
  deref [black 2 2; black 2 2] 0%nat = black 2 2 /\
  deref [black 2 2; black 2 2] 1%nat = black 2 2 /\
  0 < rows (black 2 2) /\ 0 < cols (black 2 2) /\
  exists evs,
    body (H := Plain.drawing) 800 [black 2 2; black 2 2] (Some 0%nat) (Some 1%nat)
      = Ok ([black 2 2; black 2 2], evs) /\
    rectangles evs = [] /\ labels evs = [].
Proof.
  assert (deref [black 2 2; black 2 2] 0%nat = black 2 2) as E1 by reflexivity.
  assert (deref [black 2 2; black 2 2] 1%nat = black 2 2) as E2 by reflexivity.
  assert (0 < rows (black 2 2)) as Hr by reflexivity.
  assert (0 < cols (black 2 2)) as Hc by reflexivity.
  split; [exact E1|]. split; [exact E2|]. split; [exact Hr|]. split; [exact Hc|].
  exact (proj2 (proj2 (identical_frames_no_motion (H := Plain.drawing) 800
           [black 2 2; black 2 2] 0%nat 1%nat (black 2 2) E1 E2 Hr Hc))).
Defined.

Lemma threshold_is_strict_witness :
  blurred [[(0, 0, 0)]] [[(20, 20, 20)]] = Ok [[20]] /\
  exists thresh, motion_mask [[(0, 0, 0)]] [[(20, 20, 20)]] = Ok thresh /\
    (forall y x, at1 thresh y x = if 20 <? at1 [[20]] y x then 255 else 0) /\
    (forall y x, at1 [[20]] y x = 20 -> at1 thresh y x = 0).
Proof.
  assert (blurred [[(0, 0, 0)]] [[(20, 20, 20)]] = Ok [[20]]) as Hb by reflexivity.
  split; [exact Hb|].
  exact (threshold_is_strict [[(0, 0, 0)]] [[(20, 20, 20)]] [[20]] Hb).
Defined.

(** C2 as stated fails: over frames that differ by 20 in every channel the
    blurred cell is exactly 20, and the mask has 0 there, not 255. *)
Lemma threshold_cutoff_counterexample :
  blurred [[(0, 0, 0)]] [[(20, 20, 20)]] = Ok [[20]] /\
  motion_mask [[(0, 0, 0)]] [[(20, 20, 20)]] = Ok [[0]] /\
  at1 [[0]] 0 0 <> (if 20 <=? at1 [[20]] 0 0 then 255 else 0).
Proof. split; [reflexivity|]. split; [reflexivity|]. by vm_compute. Qed.

Lemma area_filter_monotone_witness :
  exists hp1 evs1 hp2 evs2,
    100 <= 200 /\
    body (H := Plain.drawing) 200 small_scene (Some 0%nat) (Some 1%nat) = Ok (hp1, evs1) /\
    body (H := Plain.drawing) 100 small_scene (Some 0%nat) (Some 1%nat) = Ok (hp2, evs2) /\
    (length (rectangles evs1) <= length (rectangles evs2))%nat.
Proof.
  destruct (small_scene_body 200) as (hp1 & evs1 & Hb1 & _).
  destruct (small_scene_body 100) as (hp2 & evs2 & Hb2 & _).
  exists hp1, evs1, hp2, evs2.
  assert (100 <= 200) as Hle by lia.
  split; [exact Hle|]. split; [exact Hb1|]. split; [exact Hb2|].
  exact (proj2 (proj2 (area_filter_monotone (H := Plain.drawing) 200 100 small_scene
                        0%nat 1%nat hp1 hp2 evs1 evs2 Hle Hb1 Hb2))).
Defined.

Lemma rectangles_inside_frame_witness :
  exists hp' evs,
    body (H := Plain.drawing) 100 small_scene (Some 0%nat) (Some 1%nat) = Ok (hp', evs) /\
    In (0, 0, 12, 12) (rectangles evs) /\
    0 < 12 /\ 0 < 12 /\
    0 <= 0 /\ 0 + 12 <= cols (deref small_scene 0%nat) /\
    0 <= 0 /\ 0 + 12 <= rows (deref small_scene 0%nat).
Proof.
  destruct (small_scene_body 100) as (hp' & evs & Hb & Hr).
  exists hp', evs.
  assert (In (0, 0, 12, 12) (rectangles evs)) as Hin.
  { rewrite Hr. vm_compute. by left. }
  split; [exact Hb|]. split; [exact Hin|].
  exact (rectangles_inside_frame (H := Plain.drawing) 100 small_scene 0%nat 1%nat
           hp' evs 0 0 12 12 Hb Hin).
Defined.

Lemma body_deterministic_witness :
  deref small_scene 0%nat = deref shuffled_scene 2%nat /\
  deref small_scene 1%nat = deref shuffled_scene 0%nat /\
  match body (H := Plain.drawing) 100 small_scene (Some 0%nat) (Some 1%nat),
        body (H := Plain.drawing) 100 shuffled_scene (Some 2%nat) (Some 0%nat) with
  | Ok r, Ok r' => r.2 = r'.2 /\ deref r.1 0%nat = deref r'.1 2%nat
  | Raise e, Raise e' => e = e'
  | OutOfFuel, OutOfFuel => True
  | _, _ => False
  end.
Proof.
  assert (deref small_scene 0%nat = deref shuffled_scene 2%nat) as E1 by reflexivity.
  assert (deref small_scene 1%nat = deref shuffled_scene 0%nat) as E2 by reflexivity.
  split; [exact E1|]. split; [exact E2|].
  exact (body_deterministic (H := Plain.drawing) 100 small_scene shuffled_scene
           0%nat 1%nat 2%nat 0%nat E1 E2).
Defined.

Lemma label_per_rectangle_witness :
  exists hp' evs,
    body (H := Plain.drawing) 100 small_scene (Some 0%nat) (Some 1%nat) = Ok (hp', evs) /\
    length (labels evs) = length (rectangles evs) /\
    (labels evs <> [] <-> rectangles evs <> []) /\
    Forall (fun l => l = ("Status: Movement", (10, 20), Cv.FONT_HERSHEY_SIMPLEX, 1,
                          (0, 0, 255), 3)) (labels evs).
Proof.
  destruct (small_scene_body 100) as (hp' & evs & Hb & _).
  exists hp', evs. split; [exact Hb|].
  pose proof (label_per_rectangle (H := Plain.drawing) 100 small_scene 0%nat 1%nat
                hp' evs Hb) as (Hlen & Hiff & Hsame & _).
  split; [exact Hlen|]. split; [exact Hiff|exact Hsame].
Defined.

Lemma two_squares_contours :
  motion_contours (black 30 64) two_squares
  = Ok [[(0, 0); (0, 29); (29, 29); (29, 0)]; [(34, 0); (34, 29); (63, 29); (63, 0)]].
Proof. vm_compute. reflexivity. Qed.

(** C7 as stated fails: two regions move, two rectangles are drawn, and the
    label is drawn twice in that one frame. *)
Lemma label_twice_counterexample :
  exists hp' evs,
    body (H := Plain.drawing) 800 [black 30 64; two_squares] (Some 0%nat) (Some 1%nat)
      = Ok (hp', evs) /\
    In (0, 0, 30, 30) (rectangles evs) /\ In (34, 0, 30, 30) (rectangles evs) /\
    labels evs = [("Status: Movement", (10, 20), Cv.FONT_HERSHEY_SIMPLEX, 1, (0, 0, 255), 3);
                  ("Status: Movement", (10, 20), Cv.FONT_HERSHEY_SIMPLEX, 1, (0, 0, 255), 3)] /\
    length (labels evs) <> 1%nat.
Proof.
  rewrite body_eq.
  change (deref [black 30 64; two_squares] 0%nat) with (black 30 64).
  change (deref [black 30 64; two_squares] 1%nat) with two_squares.
  rewrite two_squares_contours. cbn [bind].
  eexists _, _. split; [reflexivity|].
  rewrite rectangles_iteration, labels_iteration.
  split; [vm_compute; tauto|]. split; [vm_compute; tauto|].
  split; [by vm_compute|]. by vm_compute.
Qed.

Lemma body_raises_cv2_error_only_witness :
  invalid_frames [black 1 1; black 2 2] (Some 0%nat) (Some 1%nat) /\
  body (H := Plain.drawing) 800 [black 1 1; black 2 2] (Some 0%nat) (Some 1%nat)
    = Raise cv2_error.
Proof.
  assert (invalid_frames [black 1 1; black 2 2] (Some 0%nat) (Some 1%nat)) as Hinv.
  { left. by vm_compute. }
  split; [exact Hinv|].
  exact (proj1 (body_raises_cv2_error_only (H := Plain.drawing) 800
                  [black 1 1; black 2 2] (Some 0%nat) (Some 1%nat)) Hinv).
Defined.

Lemma passing_object_run :
  exists st, run (H := Plain.drawing) true passing_object [] = Ok st /\
             rectangles (trace st) = [(0, 0, 30, 30); (0, 0, 30, 30)].
Proof. eexists. split; [lazy -[Plain.nearest]; reflexivity|]. reflexivity. Defined.

Lemma one_resized_frame_per_round_witness :
  ~ invalid_frames small_scene (Some 0%nat) (Some 1%nat) /\
  (exists hp' evs,
     body (H := Plain.drawing) 100 small_scene (Some 0%nat) (Some 1%nat) = Ok (hp', evs) /\
     written evs = [@resize Plain.drawing (deref hp' 0%nat) (1280, 720)]) /\
  (exists st,
     run (H := Plain.drawing) true passing_object [] = Ok st /\
     length (written (trace st)) = length (absdiffs (trace st))).
Proof.
  assert (~ invalid_frames small_scene (Some 0%nat) (Some 1%nat)) as Hvalid.
  { by vm_compute; intros [?|[?|[?|?]]]. }
  split; [exact Hvalid|]. split.
  - destruct (proj1 (one_resized_frame_per_round (H := Plain.drawing))
                100 small_scene 0%nat 1%nat Hvalid) as (hp' & evs & Hb).
    exists hp', evs. split; [exact Hb|].
    exact (proj1 (proj1 (proj2 (one_resized_frame_per_round (H := Plain.drawing)))
                    100 small_scene 0%nat 1%nat hp' evs Hb)).
  - destruct passing_object_run as (st & Hrun & _).
    exists st. split; [exact Hrun|].
    exact (proj1 (proj2 (proj2 (one_resized_frame_per_round (H := Plain.drawing)))
                    true passing_object [] st Hrun)).
Defined.

Lemma annotations_never_feed_back_witness :
  exists st,
    run (H := Plain.drawing) true passing_object [] = Ok st /\
    rectangles (trace st) <> [] /\
    absdiffs (trace st) `prefix_of` zip passing_object (drop 1 passing_object).
Proof.
  destruct passing_object_run as (st & Hrun & Hr).
  exists st. split; [exact Hrun|]. split; [by rewrite Hr|].
  exact (proj2 (annotations_never_feed_back (H := Plain.drawing))
           true passing_object [] st Hrun).
Defined.

(** ** Ranges of the stages *)

Lemma Forall2d_zip_with {A B C : Type} (R : A -> B -> Prop) (P : C -> Prop)
    (f : A -> B -> C) (m1 : list (list A)) (m2 : list (list B)) :
  (forall a b, R a b -> P (f a b)) ->
  Forall2 (Forall2 R) m1 m2 -> Forall (Forall P) (zip_with (zip_with f) m1 m2).
Proof.
  intros Hf Hm. induction Hm as [|r1 r2 m1 m2 Hr _ IH]; simpl; [constructor|].
  constructor; [|exact IH].
  induction Hr as [|a b r1 r2 Hab _ IHr]; simpl; constructor; auto.
Qed.

Lemma Forall2d_shape {A B : Type} (R : A -> B -> Prop)
    (m1 : list (list A)) (m2 : list (list B)) :
  Forall2 (Forall2 R) m1 m2 -> rows m1 = rows m2 /\ cols m1 = cols m2.
Proof.
  intros Hm. split.
  - unfold rows. by rewrite (Forall2_length _ _ _ Hm).
  - destruct Hm as [|r1 r2 m1 m2 Hr _]; simpl; [done|].
    by rewrite (Forall2_length _ _ _ Hr).
Qed.

Lemma sat8_range v : 0 <= Cv.sat8 v <= 255.
Proof. unfold Cv.sat8. lia. Qed.

Lemma sat8_small v d : 0 <= v <= d -> 0 <= Cv.sat8 v <= d.
Proof. unfold Cv.sat8. lia. Qed.

Lemma absdiff_px_range p q : channels_in 0 255 (Cv.absdiff_px p q).
Proof.
  destruct p as [[b1 g1] r1], q as [[b2 g2] r2]. unfold Cv.absdiff_px, channels_in.
  pose proof (sat8_range (Z.abs (b1 - b2))). pose proof (sat8_range (Z.abs (g1 - g2))).
  pose proof (sat8_range (Z.abs (r1 - r2))). lia.
Qed.

Lemma absdiff_px_within d p q :
  channels_within d p q -> channels_in 0 d (Cv.absdiff_px p q).
Proof.
  destruct p as [[b1 g1] r1], q as [[b2 g2] r2]. unfold Cv.absdiff_px, channels_in.
  intros (Hb & Hg & Hr).
  pose proof (sat8_small (Z.abs (b1 - b2)) d). pose proof (sat8_small (Z.abs (g1 - g2)) d).
  pose proof (sat8_small (Z.abs (r1 - r2)) d). lia.
Qed.

(** The grey value of a pixel lies in the range of its channels: the three
    weights add up to [2^15]. *)
Lemma bgr2gray_range d p : 0 <= d -> channels_in 0 d p -> 0 <= Cv.bgr2gray p <= d.
Proof.
  destruct p as [[b g] r]. unfold channels_in, Cv.bgr2gray. intros Hd (Hb & Hg & Hr).
  rewrite Z.shiftr_div_pow2 by lia. change (Z.shiftl 1 14) with 16384.
  change (2 ^ 15) with 32768. split.
  - apply Z.div_pos; lia.
  - apply Z.lt_succ_r, Z.div_lt_upper_bound; lia.
Qed.

Lemma smooth5_range d a b c e f :
  0 <= a <= d -> 0 <= b <= d -> 0 <= c <= d -> 0 <= e <= d -> 0 <= f <= d ->
  0 <= Cv.smooth5 a b c e f <= 16 * d.
Proof. unfold Cv.smooth5. lia. Qed.

Lemma at1_cells_in lo hi m y x : lo <= 0 <= hi -> cells_in lo hi m -> lo <= at1 m y x <= hi.
Proof. intros H0 Hm. unfold at1. by apply (cell_Forall (fun v => lo <= v <= hi)). Qed.

Lemma hline_range d (m : image1) : 0 <= d -> cells_in 0 d m -> cells_in 0 (16 * d) (Cv.hline m).
Proof.
  intros Hd Hm. apply Forall_tabulate. intros y x _ _. cbv zeta.
  apply smooth5_range; apply at1_cells_in; (lia || done).
Qed.

Lemma vline_range d (m : image1) :
  0 <= d -> cells_in 0 (16 * d) m -> cells_in 0 d (Cv.vline m).
Proof.
  intros Hd Hm. apply Forall_tabulate. intros y x _ _. cbv zeta.
  match goal with |- context [Cv.smooth5 ?a ?b ?c ?e ?f] =>
    pose proof (smooth5_range (16 * d) a b c e f) as Hs end.
  rewrite Z.shiftr_div_pow2 by lia. change (2 ^ 8) with 256.
  destruct Hs as [Hs1 Hs2]; try (apply at1_cells_in; (lia || done)).
  split.
  - apply Z.div_pos; lia.
  - apply Z.lt_succ_r, Z.div_lt_upper_bound; lia.
Qed.

(** Blurring keeps the cells in their range. *)
Lemma GaussianBlur_range d (m : image1) :
  0 <= d -> cells_in 0 d m -> cells_in 0 d (Cv.GaussianBlur m).
Proof. intros Hd Hm. by apply vline_range, hline_range. Qed.

Lemma blurred_range d src1 src2 blur :
  0 <= d ->
  (forall diff, Cv.absdiff src1 src2 = Ok diff -> Forall (Forall (channels_in 0 d)) diff) ->
  blurred src1 src2 = Ok blur -> cells_in 0 d blur.
Proof.
  intros Hd Hdiff. unfold blurred.
  destruct (Cv.absdiff src1 src2) as [diff| |]; cbn [bind]; [|done..].
  specialize (Hdiff diff eq_refl). unfold Cv.cvtColor.
  destruct (_ || _); cbn [bind]; [done|]. intros [= <-].
  apply GaussianBlur_range; [done|].
  apply (Forall2d_fmap (channels_in 0 d)); [|done].
  intros p Hp. by apply bgr2gray_range.
Qed.

Lemma absdiff_range src1 src2 diff :
  Cv.absdiff src1 src2 = Ok diff -> Forall (Forall (channels_in 0 255)) diff.
Proof.
  unfold Cv.absdiff. destruct (_ && _); [|done]. intros [= <-].
  apply Forall_forall. intros row Hrow.
  apply elem_of_lookup_zip_with in Hrow as (i & r1 & r2 & -> & _ & _).
  apply Forall_forall. intros p Hp.
  apply elem_of_lookup_zip_with in Hp as (j & a & b & -> & _ & _).
  apply absdiff_px_range.
Qed.

Lemma threshold_binary (m : image1) : binary (Cv.threshold m 20 255).2.
Proof.
  apply (Forall2d_fmap (fun _ => True)).
  - intros v _. unfold Cv.threshold_px. destruct (20 <? v); auto.
  - apply Forall_forall. intros row _. by apply Forall_forall.
Qed.

Lemma fold_max_binary (l : list Z) :
  Forall (fun v => v = 0 \/ v = 255) l ->
  fold_right Z.max 0 l = 0 \/ fold_right Z.max 0 l = 255.
Proof. intros Hl. induction Hl as [|v l Hv _ IH]; simpl; lia. Qed.

Lemma dilate1_binary (m : image1) : binary m -> binary (Cv.dilate1 m).
Proof.
  intros Hm. apply Forall_tabulate. intros y x _ _. apply fold_max_binary.
  apply Forall_fmap, Forall_forall. intros d _. simpl.
  apply (cell_Forall (fun v => v = 0 \/ v = 255)); [by left|done].
Qed.

Lemma dilate_binary (m : image1) (n : nat) : binary m -> binary (Cv.dilate m n).
Proof.
  intros Hm. unfold Cv.dilate. induction n as [|n IH]; simpl; [done|].
  by apply dilate1_binary.
Qed.

Lemma absdiff_px_comm p q : Cv.absdiff_px p q = Cv.absdiff_px q p.
Proof.
  destruct p as [[b1 g1] r1], q as [[b2 g2] r2]. unfold Cv.absdiff_px.
  assert (forall a b, Z.abs (a - b) = Z.abs (b - a)) as E by lia.
  by rewrite (E b1), (E g1), (E r1).
Qed.

Lemma zip_with_comm {A C : Type} (f : A -> A -> C) (l k : list A) :
  (forall a b, f a b = f b a) -> zip_with f l k = zip_with f k l.
Proof.
  intros Hf. revert k. induction l as [|a l IH]; intros [|b k]; simpl; [done..|].
  by rewrite Hf, IH.
Qed.

Lemma absdiff_comm src1 src2 : Cv.absdiff src1 src2 = Cv.absdiff src2 src1.
Proof.
  unfold Cv.absdiff.
  rewrite (Z.eqb_sym (rows src1)), (Z.eqb_sym (cols src1)).
  destruct (_ && _); [|done]. f_equal.
  apply zip_with_comm. intros r1 r2. apply zip_with_comm, absdiff_px_comm.
Qed.

Lemma motion_contours_comm src1 src2 :
  motion_contours src1 src2 = motion_contours src2 src1.
Proof. unfold motion_contours, motion_mask, blurred. by rewrite absdiff_comm. Qed.

Section Stages.
Context `{Drawing}.

(** X1. Changes of at most 20 in every channel of every pixel are not
    motion: the mask is all zero, no contour is found, and the body draws
    nothing. *)
Theorem small_changes_ignored (minArea : Z) (hp : heap) (l1 l2 : loc) :
  Forall2 (Forall2 (channels_within 20)) (deref hp l1) (deref hp l2) ->
  0 < rows (deref hp l1) -> 0 < cols (deref hp l1) ->
  (exists thresh, motion_mask (deref hp l1) (deref hp l2) = Ok thresh /\ all_zero thresh) /\
  motion_contours (deref hp l1) (deref hp l2) = Ok [] /\
  (exists evs, body minArea hp (Some l1) (Some l2) = Ok (hp, evs) /\
               rectangles evs = [] /\ labels evs = []).
Proof.
  intros Hclose Hr Hc.
  destruct (Forall2d_shape _ _ _ Hclose) as [Er Ec].
  destruct (blurred_returns _ _ Er Ec Hr Hc) as [blur Hb].
  assert (cells_in 0 20 blur) as Hblur.
  { eapply (blurred_range 20); [lia| |exact Hb].
    unfold Cv.absdiff. rewrite Er, Ec, !Z.eqb_refl. intros diff [= <-].
    eapply Forall2d_zip_with; [|exact Hclose]. apply absdiff_px_within. }
  assert (all_zero (Cv.threshold blur 20 255).2) as Hz.
  { eapply Forall2d_fmap; [|exact Hblur]. intros v Hv. simpl in Hv.
    unfold Cv.threshold_px. destruct (Z.ltb_spec 20 v); [lia|done]. }
  assert (motion_mask (deref hp l1) (deref hp l2) = Ok (Cv.threshold blur 20 255).2) as Hm.
  { unfold motion_mask. by rewrite Hb. }
  assert (motion_contours (deref hp l1) (deref hp l2) = Ok []) as Hcs.
  { unfold motion_contours. rewrite Hm. cbn [bind].
    by apply findContours_zero, dilate_zero. }
  split; [by eexists|]. split; [done|].
  rewrite body_eq, Hcs. cbn [bind]. unfold annotate. simpl.
  rewrite list_alter_id by done. eexists. split; [done|]. done.
Qed.

(** X2. Whatever integers the frames hold, the blurred difference is an
    8-bit image (every cell between 0 and 255), and the mask and the
    dilated mask hold only 0 and 255 and have the size of the frames. *)
Theorem stages_stay_in_range (src1 src2 : image3) (blur : image1) :
  blurred src1 src2 = Ok blur ->
  cells_in 0 255 blur /\
  exists thresh,
    motion_mask src1 src2 = Ok thresh /\
    binary thresh /\ binary (Cv.dilate thresh 3) /\
    sized thresh (rows src1) (cols src1) /\
    sized (Cv.dilate thresh 3) (rows src1) (cols src1).
Proof.
  intros Hb. split.
  - eapply (blurred_range 255); [lia| |exact Hb]. apply absdiff_range.
  - assert (motion_mask src1 src2 = Ok (Cv.threshold blur 20 255).2) as Hm.
    { unfold motion_mask. by rewrite Hb. }
    eexists. split; [exact Hm|].
    split; [apply threshold_binary|]. split; [apply dilate_binary, threshold_binary|].
    pose proof (dilated_sized _ _ _ Hm) as (Hr & Hc & Hs).
    split; [|done]. apply blurred_Ok in Hb as (_ & _ & _ & _ & Hsb).
    by apply sized_fmap.
Qed.

(** X3. Detection does not depend on the order of the two frames: an object
    that appears and an object that disappears give the same contours and
    the same rectangles. *)
Theorem detection_is_symmetric (minArea : Z) (hp : heap) (l1 l2 : loc) :
  motion_contours (deref hp l1) (deref hp l2)
    = motion_contours (deref hp l2) (deref hp l1) /\
  match body minArea hp (Some l1) (Some l2), body minArea hp (Some l2) (Some l1) with
  | Ok r, Ok r' => rectangles r.2 = rectangles r'.2
  | Raise e, Raise e' => e = e'
  | OutOfFuel, OutOfFuel => True
  | _, _ => False
  end.
Proof.
  split; [apply motion_contours_comm|].
  rewrite !body_eq, (motion_contours_comm (deref hp l2)).
  destruct (motion_contours _ _); cbn [bind]; [|done..].
  cbn [snd]. by rewrite !rectangles_iteration.
Qed.

End Stages.

(** ** Cells of a rectangular array *)

Lemma cell_lookup {A : Type} (d : A) (m : list (list A)) (i j : nat) r v :
  m !! i = Some r -> r !! j = Some v -> cell d m (Z.of_nat i) (Z.of_nat j) = v.
Proof.
  intros Hr Hv. unfold cell.
  destruct (Z.ltb_spec (Z.of_nat i) 0), (Z.ltb_spec (Z.of_nat j) 0); try lia. simpl.
  by rewrite !Nat2Z.id, Hr, Hv.
Qed.

(** A property of every cell at a position inside the array holds of every
    element. *)
Lemma Forall_cells {A : Type} (P : A -> Prop) (d : A) (m : list (list A)) :
  rectangular m ->
  (forall y x, 0 <= y < rows m -> 0 <= x < cols m -> P (cell d m y x)) ->
  Forall (Forall P) m.
Proof.
  intros Hrect Hcell. apply Forall_lookup. intros i r Hr.
  apply Forall_lookup. intros j v Hv.
  rewrite <- (cell_lookup d m i j r v Hr Hv). apply Hcell.
  - apply lookup_lt_Some in Hr. unfold rows. lia.
  - eapply Forall_lookup_1 in Hrect; [|exact Hr]. simpl in Hrect.
    apply lookup_lt_Some in Hv. lia.
Qed.

(** In a rectangular array every position inside holds an element. *)
Lemma cell_in_range {A : Type} (P : A -> Prop) (d : A) (m : list (list A)) y x :
  rectangular m -> 0 <= y < rows m -> 0 <= x < cols m ->
  Forall (Forall P) m -> P (cell d m y x).
Proof.
  intros Hrect Hy Hx Hm. unfold cell, rows in *.
  destruct (Z.ltb_spec y 0), (Z.ltb_spec x 0); try lia. simpl.
  destruct (lookup_lt_is_Some_2 m (Z.to_nat y)) as [r Hr]; [lia|]. rewrite Hr.
  eapply Forall_lookup_1 in Hrect as Hlen; [|exact Hr]. simpl in Hlen.
  destruct (lookup_lt_is_Some_2 r (Z.to_nat x)) as [v Hv]; [lia|]. rewrite Hv. simpl.
  eapply Forall_lookup_1 in Hm; [|exact Hr]. eapply Forall_lookup_1 in Hm; [|exact Hv].
  done.
Qed.

(** ** The blur at the border *)

(** The reflected index of every tap of the 5-wide kernel lies inside the
    image: the blur reads no cell outside it. *)
Lemma borderInterpolate_inside p len :
  1 <= len -> -2 <= p <= len + 1 -> 0 <= Cv.borderInterpolate p len < len.
Proof.
  intros Hlen Hp. unfold Cv.borderInterpolate, Cv.reflect101.
  destruct (Z.eqb_spec len 1); [lia|].
  repeat match goal with
  | |- context [?a <? ?b] => destruct (Z.ltb_spec a b)
  | |- context [?a <=? ?b] => destruct (Z.leb_spec a b)
  end; lia.
Qed.

Lemma constant_at1 v (m : image1) y x :
  rectangular m -> constant v m -> 0 <= y < rows m -> 0 <= x < cols m -> at1 m y x = v.
Proof. intros Hr Hc Hy Hx. unfold at1. by apply (cell_in_range (fun c => c = v)). Qed.

Lemma hline_constant v (m : image1) :
  rectangular m -> constant v m -> constant (16 * v) (Cv.hline m).
Proof.
  intros Hr Hc. apply Forall_tabulate. intros y x Hy Hx. cbv beta zeta.
  rewrite !(constant_at1 v m) by
    (try done; apply borderInterpolate_inside; lia).
  unfold Cv.smooth5. lia.
Qed.

Lemma vline_constant v (m : image1) :
  rectangular m -> constant (16 * v) m -> constant v (Cv.vline m).
Proof.
  intros Hr Hc. apply Forall_tabulate. intros y x Hy Hx. cbv beta zeta.
  rewrite !(constant_at1 (16 * v) m) by
    (try done; apply borderInterpolate_inside; lia).
  unfold Cv.smooth5. rewrite Z.shiftr_div_pow2 by lia. change (2 ^ 8) with 256.
  symmetry. apply (Z.div_unique _ 256 v 128); lia.
Qed.

(** The blur leaves a constant image as it is, borders included. *)
Lemma GaussianBlur_constant v (m : image1) :
  rectangular m -> 0 < rows m -> 0 < cols m ->
  constant v m -> constant v (Cv.GaussianBlur m).
Proof.
  intros Hr Hrows Hcols Hc. unfold Cv.GaussianBlur.
  apply vline_constant; [|by apply hline_constant].
  by destruct (hline_sized m Hrows Hcols).
Qed.

Lemma bgr2gray_grey v : Cv.bgr2gray (v, v, v) = v.
Proof.
  unfold Cv.bgr2gray. rewrite Z.shiftr_div_pow2 by lia.
  change (Z.shiftl 1 14) with 16384. change (2 ^ 15) with 32768.
  symmetry. apply (Z.div_unique _ 32768 v 16384); lia.
Qed.

Lemma zip_with_width {A B C : Type} (R : A -> B -> Prop) (f : A -> B -> C) (w : Z)
    (m1 : list (list A)) (m2 : list (list B)) :
  Forall (fun r => Z.of_nat (length r) = w) m1 -> Forall2 (Forall2 R) m1 m2 ->
  Forall (fun r => Z.of_nat (length r) = w) (zip_with (zip_with f) m1 m2).
Proof.
  intros Hw Hm. induction Hm as [|r1 r2 m1 m2 Hr _ IH]; simpl; [constructor|].
  apply Forall_cons in Hw as [Hw1 Hw]. constructor; [|by apply IH].
  rewrite length_zip_with, <- (Forall2_length _ _ _ Hr). lia.
Qed.

(** X4. When every pixel changes by the same amount [d] in every channel
    (a change of lighting), grey conversion and blur return exactly [d] in
    every cell, at the borders too; so the whole mask is 255 when [d]
    exceeds 20 and 0 otherwise. *)
Theorem uniform_change (d : Z) (src1 src2 : image3) :
  rectangular src1 -> 0 < rows src1 -> 0 < cols src1 ->
  Forall2 (Forall2 (fun p q => Cv.absdiff_px p q = (d, d, d))) src1 src2 ->
  exists blur thresh,
    blurred src1 src2 = Ok blur /\ constant d blur /\
    motion_mask src1 src2 = Ok thresh /\
    constant (if 20 <? d then 255 else 0) thresh.
Proof.
  intros Hrect Hrows Hcols Hd.
  destruct (Forall2d_shape _ _ _ Hd) as [Er Ec].
  assert (Cv.absdiff src1 src2
          = Ok (zip_with (zip_with Cv.absdiff_px) src1 src2)) as Ha.
  { unfold Cv.absdiff. by rewrite Er, Ec, !Z.eqb_refl. }
  pose proof (absdiff_Ok _ _ _ Ha) as (_ & _ & Hr' & Hc').
  set (diff := zip_with (zip_with Cv.absdiff_px) src1 src2) in *.
  assert (Forall (Forall (fun p => p = (d, d, d))) diff) as Hdiff.
  { by eapply Forall2d_zip_with; [|exact Hd]. }
  assert (rectangular diff) as Hrd.
  { unfold rectangular. rewrite Hc'. by eapply zip_with_width; [|exact Hd]. }
  set (gray := (fun row : list pixel => Cv.bgr2gray <$> row) <$> diff).
  assert (Cv.cvtColor diff = Ok gray) as Hg.
  { unfold Cv.cvtColor. rewrite Hr', Hc'.
    destruct (Z.eqb_spec (rows src1) 0); [lia|].
    by destruct (Z.eqb_spec (cols src1) 0); [lia|]. }
  assert (constant d gray) as Hcg.
  { eapply Forall2d_fmap; [|exact Hdiff]. intros p ->. apply bgr2gray_grey. }
  assert (constant d (Cv.GaussianBlur gray)) as Hcb.
  { apply GaussianBlur_constant; [by apply rectangular_fmap| | |done].
    - unfold gray. rewrite rows_fmap. lia.
    - unfold gray. rewrite cols_fmap. lia. }
  exists (Cv.GaussianBlur gray), (Cv.threshold (Cv.GaussianBlur gray) 20 255).2.
  assert (blurred src1 src2 = Ok (Cv.GaussianBlur gray)) as Hb.
  { unfold blurred. rewrite Ha. cbn [bind]. by rewrite Hg. }
  split; [done|]. split; [done|]. split.
  - unfold motion_mask. by rewrite Hb.
  - eapply Forall2d_fmap; [|exact Hcb]. by intros v ->.
Qed.

(** ** The reach of the dilation *)

Lemma fold_max_ge (v : Z) (l : list Z) : In v l -> v <= fold_right Z.max 0 l.
Proof. induction l as [|a l IH]; simpl; [done|]. intros [->|Hv]; [lia|]. specialize (IH Hv). lia. Qed.

Lemma fold_max_attained (l : list Z) :
  fold_right Z.max 0 l = 0 \/ In (fold_right Z.max 0 l) l.
Proof.
  induction l as [|a l IH]; simpl; [by left|].
  destruct (Z.max_spec a (fold_right Z.max 0 l)) as [[_ ->]|[_ ->]]; [|by right; left].
  destruct IH as [->|IH]; [by left|]. by right; right.
Qed.

Lemma neighbourhood3x3_spec (d : point) :
  In d Cv.neighbourhood3x3 <-> (-1 <= d.1 <= 1 /\ -1 <= d.2 <= 1).
Proof.
  destruct d as [dx dy]. unfold Cv.neighbourhood3x3. simpl. split.
  - intros Hd. repeat (destruct Hd as [[= <- <-]|Hd]; [lia|]). done.
  - intros [Hx Hy].
    assert (dx = -1 \/ dx = 0 \/ dx = 1) as [->|[->| ->]] by lia;
      (assert (dy = -1 \/ dy = 0 \/ dy = 1) as [->|[->| ->]] by lia); tauto.
Qed.

Lemma at1_dilate1 (m : image1) y x :
  0 <= y < rows m -> 0 <= x < cols m ->
  at1 (Cv.dilate1 m) y x
  = fold_right Z.max 0
      ((fun d : point => at1 m (y + d.2) (x + d.1)) <$> Cv.neighbourhood3x3).
Proof. intros Hy Hx. unfold at1 at 1, Cv.dilate1. by rewrite cell_tabulate. Qed.

(** One pass takes the maximum over the eight neighbours and the cell. *)
Lemma dilate1_ge (m : image1) y x dy dx :
  0 <= y < rows m -> 0 <= x < cols m -> -1 <= dy <= 1 -> -1 <= dx <= 1 ->
  at1 m (y + dy) (x + dx) <= at1 (Cv.dilate1 m) y x.
Proof.
  intros Hy Hx Hdy Hdx. rewrite at1_dilate1 by done. apply fold_max_ge.
  apply in_map_iff. exists (dx, dy). split; [done|].
  by apply neighbourhood3x3_spec.
Qed.

Lemma dilate1_from (m : image1) y x :
  at1 (Cv.dilate1 m) y x <> 0 ->
  exists dy dx, -1 <= dy <= 1 /\ -1 <= dx <= 1 /\
    at1 m (y + dy) (x + dx) = at1 (Cv.dilate1 m) y x.
Proof.
  intros Hne.
  assert (0 <= y < rows m /\ 0 <= x < cols m) as [Hy Hx].
  { unfold at1 in Hne. apply cell_inside in Hne as (Hy & r & Hr & Hx).
    unfold Cv.dilate1 in Hy, Hr. rewrite rows_tabulate in Hy by apply rows_nonneg.
    split; [done|].
    pose proof (width_tabulate (rows m) (cols m)
      (fun y x => fold_right Z.max 0
         ((fun d : point => at1 m (y + d.2) (x + d.1)) <$> Cv.neighbourhood3x3)))
      as Hw.
    eapply Forall_lookup_1 in Hw; [|exact Hr]. simpl in Hw.
    pose proof (cols_nonneg m). lia. }
  rewrite at1_dilate1 in Hne |- * by done.
  destruct (fold_max_attained
    ((fun d : point => at1 m (y + d.2) (x + d.1)) <$> Cv.neighbourhood3x3))
    as [E|Hin]; [done|].
  apply in_map_iff in Hin as ([dx dy] & E & Hd).
  apply neighbourhood3x3_spec in Hd. cbn [fst snd] in Hd, E.
  exists dy, dx. split; [lia|]. split; [lia|exact E].
Qed.

Lemma dilate_size (m : image1) (n : nat) :
  0 < rows m -> 0 < cols m ->
  rows (Cv.dilate m n) = rows m /\ cols (Cv.dilate m n) = cols m.
Proof.
  intros Hr Hc. unfold Cv.dilate. induction n as [|n [IHr IHc]]; simpl; [done|].
  destruct (dilate1_sized (Nat.iter n Cv.dilate1 m)) as (_ & -> & ->); [lia..|done].
Qed.

Lemma dilate_S (m : image1) (n : nat) :
  Cv.dilate m (S n) = Cv.dilate1 (Cv.dilate m n).
Proof. done. Qed.

(** [n] passes reach [n] cells in every direction. *)
Lemma dilate_ge (m : image1) (n : nat) : forall y x dy dx,
  0 <= y < rows m -> 0 <= x < cols m ->
  0 <= y + dy < rows m -> 0 <= x + dx < cols m ->
  Z.abs dy <= Z.of_nat n -> Z.abs dx <= Z.of_nat n ->
  at1 m (y + dy) (x + dx) <= at1 (Cv.dilate m n) y x.
Proof.
  induction n as [|n IH]; intros y x dy dx Hy Hx Hy' Hx' Hdy Hdx.
  - assert (dy = 0) as -> by lia. assert (dx = 0) as -> by lia.
    rewrite !Z.add_0_r. done.
  - destruct (dilate_size m n) as [Er Ec]; [lia..|].
    set (ey := Z.max (-1) (Z.min 1 dy)). set (ex := Z.max (-1) (Z.min 1 dx)).
    transitivity (at1 (Cv.dilate m n) (y + ey) (x + ex)).
    + replace (y + dy) with (y + ey + (dy - ey)) by lia.
      replace (x + dx) with (x + ex + (dx - ex)) by lia.
      apply IH; lia.
    + rewrite dilate_S. apply dilate1_ge; lia.
Qed.

Lemma dilate_from (m : image1) (n : nat) : forall y x,
  at1 (Cv.dilate m n) y x <> 0 ->
  exists dy dx, Z.abs dy <= Z.of_nat n /\ Z.abs dx <= Z.of_nat n /\
    at1 m (y + dy) (x + dx) = at1 (Cv.dilate m n) y x.
Proof.
  induction n as [|n IH]; intros y x Hne.
  - exists 0, 0. rewrite !Z.add_0_r. done.
  - rewrite dilate_S in Hne |- *.
    destruct (dilate1_from _ _ _ Hne) as (ey & ex & Hey & Hex & E).
    rewrite <- E in Hne |- *.
    destruct (IH _ _ Hne) as (dy & dx & Hdy & Hdx & E').
    exists (ey + dy), (ex + dx). rewrite !Z.add_assoc. split; [lia|]. split; [lia|done].
Qed.

Lemma at1_binary (m : image1) y x : binary m -> at1 m y x = 0 \/ at1 m y x = 255.
Proof. intros Hm. unfold at1. apply (cell_Forall (fun v => v = 0 \/ v = 255)); auto. Qed.

Lemma mask_sized src1 src2 thresh :
  motion_mask src1 src2 = Ok thresh ->
  0 < rows src1 /\ 0 < cols src1 /\ binary thresh /\
  sized thresh (rows src1) (cols src1).
Proof.
  intros Hm. apply motion_mask_Ok in Hm as (blur & Hb & ->).
  apply blurred_Ok in Hb as (_ & _ & Hr & Hc & Hs).
  split; [done|]. split; [done|]. split; [apply threshold_binary|by apply sized_fmap].
Qed.

(** X5. Three passes of the 3x3 element are one 7x7 window: a cell of the
    dilated mask is 255 exactly when some cell of the mask at most three
    rows and three columns away is 255. *)
Theorem dilation_reaches_three_cells (src1 src2 : image3) (thresh : image1) (y x : Z) :
  motion_mask src1 src2 = Ok thresh ->
  0 <= y < rows src1 -> 0 <= x < cols src1 ->
  (at1 (Cv.dilate thresh 3) y x = 255 <->
   exists dy dx, -3 <= dy <= 3 /\ -3 <= dx <= 3 /\ at1 thresh (y + dy) (x + dx) = 255).
Proof.
  intros Hm Hy Hx.
  destruct (mask_sized _ _ _ Hm) as (Hr & Hc & Hbin & Hrect & Er & Ec).
  split.
  - intros E. destruct (dilate_from thresh 3 y x) as (dy & dx & Hdy & Hdx & E'); [lia|].
    exists dy, dx. rewrite E', E. split; [lia|]. split; [lia|done].
  - intros (dy & dx & Hdy & Hdx & E).
    assert (0 <= y + dy < rows thresh /\ 0 <= x + dx < cols thresh) as [Hy' Hx'].
    { assert (at1 thresh (y + dy) (x + dx) <> 0) as Hne by lia.
      apply (px_inside thresh (x + dx, y + dy)) in Hne; [|done]. simpl in Hne. lia. }
    pose proof (dilate_ge thresh 3 y x dy dx) as Hge.
    rewrite E in Hge.
    destruct (at1_binary (Cv.dilate thresh 3) y x) as [E0|E1];
      [by apply dilate_binary| |done].
    lia.
Qed.

(** ** What the scan finds *)

Lemma scan_step_grows fuel st pos st' :
  Cv.scan_step fuel st pos = Some st' ->
  st' = st \/ length st'.2 = S (length st.2).
Proof.
  destruct st as [[img nbd] acc]. unfold Cv.scan_step.
  repeat match goal with
  | |- context [if ?b then _ else _] => destruct b
  | |- context [Cv.fetchContour ?a ?b ?c ?d ?e] =>
      destruct (Cv.fetchContour a b c d e) as [[? ?]|]
  end; intros [= <-]; auto.
Qed.

Lemma scan_grows fuel cells : forall st st',
  Cv.scan fuel st cells = Some st' -> (length st.2 <= length st'.2)%nat.
Proof.
  induction cells as [|pos cells IH]; intros st st'; cbn [Cv.scan].
  - by intros [= <-].
  - destruct (Cv.scan_step fuel st pos) as [st1|] eqn:E1; [|done].
    intros E. apply IH in E. apply scan_step_grows in E1 as [->|E1]; lia.
Qed.

Lemma scan_step_quiet fuel img nbd acc pos st' :
  Cv.scan_step fuel (img, nbd, acc) pos = Some st' ->
  length st'.2 = length acc -> st' = (img, nbd, acc) /\ quiet img pos.
Proof.
  intros E Hlen. unfold quiet.
  pose proof (scan_step_grows _ _ _ _ E) as [->|Hg]; [|simpl in Hg; lia].
  split; [done|]. revert E. unfold Cv.scan_step.
  destruct (Z.eqb_spec (Cv.px img pos) (Cv.px img (pos.1 - 1, pos.2))); [by left|].
  destruct (Z.eqb_spec (Cv.px img (pos.1 - 1, pos.2)) 0),
           (Z.eqb_spec (Cv.px img pos) 1); simpl; try (intros _; right; lia).
  destruct (Cv.fetchContour _ _ _ _ _) as [[? ?]|]; [|done].
  intros [= _ _ Hacc]. apply (f_equal length) in Hacc. simpl in Hacc. lia.
Qed.

Lemma scan_quiet fuel cells : forall img nbd acc st',
  Cv.scan fuel (img, nbd, acc) cells = Some st' ->
  length st'.2 = length acc -> Forall (quiet img) cells.
Proof.
  induction cells as [|pos cells IH]; intros img nbd acc st'; cbn [Cv.scan]; [done|].
  destruct (Cv.scan_step fuel (img, nbd, acc) pos) as [st1|] eqn:E1; [|done].
  intros E Hlen.
  pose proof (scan_grows _ _ _ _ E) as Hg.
  pose proof (scan_step_grows _ _ _ _ E1) as [->|Hg1]; [|simpl in Hg1; lia].
  apply scan_step_quiet in E1 as [_ Hq]; [|done].
  constructor; [done|]. by eapply IH.
Qed.

Lemma px_binarize src p :
  Cv.px (Cv.binarize src) p = if Cv.px src p =? 0 then 0 else 1.
Proof.
  unfold Cv.px, at1, Cv.binarize.
  by rewrite <- (cell_fmap (fun v => if v =? 0 then 0 else 1) 0 src).
Qed.

(** A scan that starts no border has seen no cell other than 0. *)
Lemma quiet_zero (src : image1) :
  Forall (quiet (Cv.binarize src)) (Cv.raster (rows src) (cols src)) ->
  forall y x, 0 <= y < rows src -> 0 <= x < cols src -> at1 src y x = 0.
Proof.
  intros Hq y x Hy.
  assert (forall n : nat, Z.of_nat n <= cols src ->
            forall x, 0 <= x < Z.of_nat n -> Cv.px (Cv.binarize src) (x, y) = 0) as Hrow.
  { induction n as [|n IH]; intros Hn x' Hx'; [lia|].
    destruct (decide (x' = Z.of_nat n)) as [->|]; [|apply IH; lia].
    assert (Cv.px (Cv.binarize src) (Z.of_nat n - 1, y) = 0) as Hprev.
    { destruct n as [|n'].
      - unfold Cv.px, at1, cell. simpl. by rewrite orb_true_r.
      - apply IH; lia. }
    assert (quiet (Cv.binarize src) (Z.of_nat n, y)) as [E|Hno].
    { eapply Forall_forall in Hq; [exact Hq|].
      apply list_elem_of_In, In_raster. lia. }
    - cbn [fst snd] in E. by rewrite E.
    - cbn [fst snd] in Hno. rewrite Hprev in Hno. rewrite px_binarize in Hno |- *.
      destruct (Cv.px src (Z.of_nat n, y) =? 0); [done|].
      exfalso. by apply Hno. }
  intros Hx.
  specialize (Hrow (Z.to_nat (cols src)) ltac:(lia) x ltac:(lia)).
  rewrite px_binarize in Hrow. unfold Cv.px in Hrow. simpl in Hrow.
  by destruct (Z.eqb_spec (at1 src y x) 0).
Qed.

Lemma findContours_none (src : image1) :
  rectangular src -> Cv.findContours src = Ok [] -> all_zero src.
Proof.
  intros Hrect. unfold Cv.findContours.
  destruct (Cv.scan _ _ _) as [st|] eqn:E; [|done]. intros [= Hrev].
  assert (st.2 = []) as Hnil.
  { apply (f_equal (@rev contour)) in Hrev. by rewrite rev_involutive in Hrev. }
  apply (Forall_cells (fun v => v = 0) 0); [done|].
  apply quiet_zero. eapply scan_quiet; [exact E|]. by rewrite Hnil.
Qed.

Lemma findContours_foreground (src : image1) contours :
  Cv.findContours src = Ok contours ->
  Forall (fun c : contour =>
            c <> [] /\ Forall (fun p => at1 src p.2 p.1 <> 0) c) contours.
Proof.
  unfold Cv.findContours.
  destruct (Cv.scan _ _ _) as [st|] eqn:E; [|done]. intros [= <-].
  assert (on_foreground (Cv.binarize src) st.2) as Hfg.
  { eapply scan_spec; [| | |exact E]; [apply same_support_refl|done|constructor]. }
  apply Forall_forall. intros c Hc.
  apply list_elem_of_In, in_rev, list_elem_of_In in Hc.
  eapply Forall_forall in Hfg as [Hne Hpts]; [|exact Hc].
  split; [done|]. eapply Forall_impl; [exact Hpts|].
  intros p Hp. simpl in Hp. rewrite px_binarize in Hp.
  unfold Cv.px in Hp. by destruct (Z.eqb_spec (at1 src p.2 p.1) 0).
Qed.

(** X6. The detector misses nothing it could see: no contour is found
    exactly when no cell of the blurred difference exceeds 20. *)
Theorem no_contour_iff_below_threshold (src1 src2 : image3) (blur : image1) :
  blurred src1 src2 = Ok blur ->
  (motion_contours src1 src2 = Ok [] <-> cells_in 0 20 blur).
Proof.
  intros Hb.
  assert (motion_mask src1 src2 = Ok (Cv.threshold blur 20 255).2) as Hm.
  { unfold motion_mask. by rewrite Hb. }
  destruct (mask_sized _ _ _ Hm) as (Hr & Hc & Hbin & Hrect & Er & Ec).
  pose proof (dilated_sized _ _ _ Hm) as (_ & _ & Hdrect & Edr & Edc).
  pose proof (blurred_Ok _ _ _ Hb) as (_ & _ & _ & _ & Hbrect & Ebr & Ebc).
  assert (cells_in 0 255 blur) as Hrange.
  { eapply (blurred_range 255); [lia| |exact Hb]. apply absdiff_range. }
  unfold motion_contours. rewrite Hm. cbn [bind]. split.
  - intros Hnone. apply findContours_none in Hnone; [|done].
    apply (Forall_cells (fun v => 0 <= v <= 20) 0); [done|].
    intros y x Hy Hx.
    assert (at1 (Cv.threshold blur 20 255).2 y x = 0) as Hz.
    { pose proof (dilate_ge (Cv.threshold blur 20 255).2 3 y x 0 0) as Hge.
      rewrite !Z.add_0_r in Hge.
      rewrite (at1_all_zero (Cv.dilate _ 3)) in Hge by done.
      destruct (at1_binary (Cv.threshold blur 20 255).2 y x) as [E|E]; [done|done|].
      rewrite E in Hge. lia. }
    rewrite at1_threshold in Hz by lia. unfold Cv.threshold_px in Hz.
    pose proof (at1_cells_in 0 255 blur y x ltac:(lia) Hrange) as Hv.
    unfold at1 in *. destruct (Z.ltb_spec 20 (cell 0 blur y x)); [done|lia].
  - intros Hsmall. apply findContours_zero, dilate_zero.
    eapply Forall2d_fmap; [|exact Hsmall]. intros v Hv. simpl in Hv.
    unfold Cv.threshold_px. destruct (Z.ltb_spec 20 v); [lia|done].
Qed.

(** X7. Every contour found lies on the dilated mask: it has at least one
    point, and each of its points is a cell inside the frame where the
    dilated mask is 255. *)
Theorem contours_lie_on_the_mask (src1 src2 : image3) (contours : list contour) :
  motion_contours src1 src2 = Ok contours ->
  exists thresh,
    motion_mask src1 src2 = Ok thresh /\
    Forall (fun c : contour =>
              c <> [] /\
              Forall (fun p => 0 <= p.1 < cols src1 /\ 0 <= p.2 < rows src1 /\
                               at1 (Cv.dilate thresh 3) p.2 p.1 = 255) c) contours.
Proof.
  unfold motion_contours.
  destruct (motion_mask src1 src2) as [thresh| |] eqn:Hm; cbn [bind]; [|done..].
  intros Hcs. exists thresh. split; [done|].
  destruct (mask_sized _ _ _ Hm) as (Hr & Hc & Hbin & _).
  pose proof (dilated_sized _ _ _ Hm) as (_ & _ & Hdrect & Edr & Edc).
  apply findContours_foreground in Hcs.
  eapply Forall_impl; [exact Hcs|]. intros c [Hne Hpts]. split; [done|].
  eapply Forall_impl; [exact Hpts|]. intros p Hp. simpl in Hp.
  pose proof (px_inside (Cv.dilate thresh 3) p Hdrect Hp) as Hin.
  rewrite Edr, Edc in Hin. split; [lia|]. split; [lia|].
  destruct (at1_binary (Cv.dilate thresh 3) p.2 p.1) as [E|E];
    [by apply dilate_binary|done|done].
Qed.

(** ** The bounding rectangle *)

Lemma fold_min_spec (d : Z) (l : list Z) :
  Forall (fun v => fold_right Z.min d l <= v) (d :: l) /\
  In (fold_right Z.min d l) (d :: l).
Proof.
  induction l as [|a l [IHle IHin]]; simpl.
  - split; [constructor; [lia|constructor]|by left].
  - apply Forall_cons in IHle as [Hd Hl]. split.
    + constructor; [lia|]. constructor; [lia|].
      eapply Forall_impl; [exact Hl|]. simpl. lia.
    + destruct (Z.min_spec a (fold_right Z.min d l)) as [[_ ->]|[_ ->]]; [by right; left|].
      destruct IHin as [Hin|Hin]; [by left|by right; right].
Qed.

Lemma fold_max_spec (d : Z) (l : list Z) :
  Forall (fun v => v <= fold_right Z.max d l) (d :: l) /\
  In (fold_right Z.max d l) (d :: l).
Proof.
  induction l as [|a l [IHle IHin]]; simpl.
  - split; [constructor; [lia|constructor]|by left].
  - apply Forall_cons in IHle as [Hd Hl]. split.
    + constructor; [lia|]. constructor; [lia|].
      eapply Forall_impl; [exact Hl|]. simpl. lia.
    + destruct (Z.max_spec a (fold_right Z.max d l)) as [[_ ->]|[_ ->]]; [|by right; left].
      destruct IHin as [Hin|Hin]; [by left|by right; right].
Qed.

(** The rectangle covers the contour and each of its sides holds a point
    of the contour. *)
Lemma boundingRect_spec (c : contour) x y w h :
  c <> [] -> Cv.boundingRect c = (x, y, w, h) ->
  Forall (fun p => x <= p.1 < x + w /\ y <= p.2 < y + h) c /\
  (exists p, In p c /\ p.1 = x) /\ (exists p, In p c /\ p.1 = x + w - 1) /\
  (exists p, In p c /\ p.2 = y) /\ (exists p, In p c /\ p.2 = y + h - 1).
Proof.
  destruct c as [|p l]; [done|]. intros _. unfold Cv.boundingRect. cbv zeta.
  destruct (fold_min_spec p.1 (fst <$> l)) as [Hx0 Ix0].
  destruct (fold_max_spec p.1 (fst <$> l)) as [Hx1 Ix1].
  destruct (fold_min_spec p.2 (snd <$> l)) as [Hy0 Iy0].
  destruct (fold_max_spec p.2 (snd <$> l)) as [Hy1 Iy1].
  intros [= <- <- <- <-].
  change (p.1 :: (fst <$> l)) with (fst <$> p :: l) in *.
  change (p.2 :: (snd <$> l)) with (snd <$> p :: l) in *.
  rewrite Forall_fmap in Hx0, Hx1, Hy0, Hy1.
  apply in_map_iff in Ix0 as (p1 & E1 & I1). apply in_map_iff in Ix1 as (p2 & E2 & I2).
  apply in_map_iff in Iy0 as (p3 & E3 & I3). apply in_map_iff in Iy1 as (p4 & E4 & I4).
  split.
  - apply Forall_forall. intros q Hq.
    rewrite Forall_forall in Hx0, Hx1, Hy0, Hy1.
    specialize (Hx0 q Hq). specialize (Hx1 q Hq).
    specialize (Hy0 q Hq). specialize (Hy1 q Hq). simpl in *. lia.
  - split; [by exists p1|]. split; [exists p2; split; [done|lia]|].
    split; [by exists p3|]. exists p4. split; [done|lia].
Qed.

(** X8. [cv2.boundingRect] returns the smallest upright rectangle that
    covers the contour: every point lies in it, and every rectangle that
    covers all the points contains it. *)
Theorem boundingRect_smallest_cover (c : contour) (x y w h : Z) :
  c <> [] -> Cv.boundingRect c = (x, y, w, h) ->
  Forall (fun p => x <= p.1 < x + w /\ y <= p.2 < y + h) c /\
  forall x' y' w' h',
    Forall (fun p => x' <= p.1 < x' + w' /\ y' <= p.2 < y' + h') c ->
    x' <= x /\ y' <= y /\ x + w <= x' + w' /\ y + h <= y' + h'.
Proof.
  intros Hne Hb.
  destruct (boundingRect_spec c x y w h Hne Hb)
    as (Hcover & (p1 & I1 & E1) & (p2 & I2 & E2) & (p3 & I3 & E3) & (p4 & I4 & E4)).
  split; [done|]. intros x' y' w' h' Hc'. rewrite Forall_forall in Hc'.
  apply list_elem_of_In in I1, I2, I3, I4.
  pose proof (Hc' p1 I1). pose proof (Hc' p2 I2).
  pose proof (Hc' p3 I3). pose proof (Hc' p4 I4). lia.
Qed.

(** ** Contours without area *)

Lemma last_cons {A : Type} (a d : A) (l : list A) : List.last (a :: l) d = List.last l a.
Proof.
  revert a d. induction l as [|b l IH]; intros a d; [done|].
  change (List.last (a :: b :: l) d) with (List.last (b :: l) d). by rewrite !IH.
Qed.

Lemma shoelace_from_column (x0 : Z) (c : contour) : forall prev a00,
  prev.1 = x0 -> Forall (fun p => p.1 = x0) c ->
  Cv.shoelace_from prev c a00 = a00 + x0 * (List.last c prev).2 - x0 * prev.2.
Proof.
  induction c as [|p c IH]; intros prev a00 Hprev Hc; simpl Cv.shoelace_from.
  - simpl. lia.
  - apply Forall_cons in Hc as [Hp Hc]. rewrite (IH p) by done.
    rewrite last_cons, Hprev, Hp. lia.
Qed.

Lemma shoelace_from_row (y0 : Z) (c : contour) : forall prev a00,
  prev.2 = y0 -> Forall (fun p => p.2 = y0) c ->
  Cv.shoelace_from prev c a00 = a00 + y0 * prev.1 - y0 * (List.last c prev).1.
Proof.
  induction c as [|p c IH]; intros prev a00 Hprev Hc; simpl Cv.shoelace_from.
  - simpl. lia.
  - apply Forall_cons in Hc as [Hp Hc]. rewrite (IH p) by done.
    rewrite last_cons, Hprev, Hp. lia.
Qed.

Lemma last_In {A : Type} (a d : A) (l : list A) : In (List.last (a :: l) d) (a :: l).
Proof.
  revert a d. induction l as [|b l IH]; intros a d; [by left|].
  right. change (List.last (a :: b :: l) d) with (List.last (b :: l) d). apply IH.
Qed.

(** A contour on one column or one row encloses nothing. *)
Lemma shoelace_thin (c : contour) :
  (exists x0, Forall (fun p => p.1 = x0) c) \/ (exists y0, Forall (fun p => p.2 = y0) c) ->
  Cv.shoelace c = 0.
Proof.
  destruct c as [|p0 l]; [done|]. unfold Cv.shoelace.
  pose proof (last_In p0 p0 l) as Hlast. apply list_elem_of_In in Hlast.
  assert (List.last (p0 :: l) (List.last (p0 :: l) p0) = List.last (p0 :: l) p0) as E.
  { by rewrite !last_cons. }
  intros [[x0 Hc]|[y0 Hc]].
  - rewrite (shoelace_from_column x0); [|by eapply Forall_forall in Hc|done].
    rewrite E. lia.
  - rewrite (shoelace_from_row y0); [|by eapply Forall_forall in Hc|done].
    rewrite E. lia.
Qed.

Lemma survives_positive minArea c :
  0 < minArea -> survives minArea c = true -> Cv.shoelace c <> 0.
Proof.
  intros Hpos Hs E. apply survives_le in Hs. unfold Cv.contourArea in Hs.
  rewrite E in Hs. revert Hs. unfold Qle, Qabs, Qmult, inject_Z. simpl. lia.
Qed.

Section Boxes.
Context `{Drawing}.

(** X9. A rectangle is drawn only around motion: each of its four sides
    passes through a cell where the dilated mask is 255. *)
Theorem rectangles_touch_the_mask (minArea : Z) (hp hp' : heap) (l1 l2 : loc)
    (evs : list event) :
  body minArea hp (Some l1) (Some l2) = Ok (hp', evs) ->
  exists thresh,
    motion_mask (deref hp l1) (deref hp l2) = Ok thresh /\
    Forall (touches (Cv.dilate thresh 3)) (rectangles evs).
Proof.
  intros Hb. apply body_rectangles in Hb as (contours & Hcs & -> & _).
  pose proof Hcs as Hcs'. unfold motion_contours in Hcs'.
  destruct (motion_mask _ _) as [thresh| |] eqn:Hm; cbn [bind] in Hcs'; [|done..].
  exists thresh. split; [done|].
  pose proof (dilate_binary thresh 3) as Hbin.
  apply findContours_foreground in Hcs'.
  apply Forall_fmap, Forall_forall. intros c Hc.
  apply list_elem_of_In, filter_In in Hc as [Hc _]. apply list_elem_of_In in Hc.
  eapply Forall_forall in Hcs' as [Hne Hpts]; [|exact Hc]. simpl.
  destruct (Cv.boundingRect c) as [[[x y] w] h] eqn:Eb.
  destruct (boundingRect_spec c x y w h Hne Eb)
    as (Hcover & (p1 & I1 & E1) & (p2 & I2 & E2) & (p3 & I3 & E3) & (p4 & I4 & E4)).
  rewrite Forall_forall in Hcover, Hpts.
  assert (forall p, In p c ->
            (x <= p.1 < x + w /\ y <= p.2 < y + h) /\
            at1 (Cv.dilate thresh 3) p.2 p.1 = 255) as Hp.
  { intros p Hp%list_elem_of_In. split; [by apply Hcover|].
    specialize (Hpts p Hp). simpl in Hpts.
    destruct (at1_binary (Cv.dilate thresh 3) p.2 p.1) as [E|E]; [|done..].
    apply Hbin. by destruct (mask_sized _ _ _ Hm) as (_ & _ & ? & _). }
  unfold touches.
  destruct (Hp p1 I1) as [? ?]. destruct (Hp p2 I2) as [? ?].
  destruct (Hp p3 I3) as [? ?]. destruct (Hp p4 I4) as [? ?].
  split; [exists p1.2; rewrite <- E1; split; [lia|done]|].
  split; [exists p2.2; rewrite <- E2; split; [lia|done]|].
  split; [exists p3.1; rewrite <- E3; split; [lia|done]|].
  exists p4.1. rewrite <- E4. split; [lia|done].
Qed.

(** X10. With a positive [minArea] no contour on a single row or column
    is boxed, since it encloses no area: every rectangle drawn is at least
    2 wide and 2 high. *)
Theorem rectangles_at_least_two_wide (minArea : Z) (hp hp' : heap) (l1 l2 : loc)
    (evs : list event) :
  0 < minArea ->
  body minArea hp (Some l1) (Some l2) = Ok (hp', evs) ->
  Forall (fun r : rect => let '(x, y, w, h) := r in 2 <= w /\ 2 <= h) (rectangles evs).
Proof.
  intros Hpos Hb. apply body_rectangles in Hb as (contours & Hcs & -> & _).
  apply Forall_fmap, Forall_forall. intros c Hc.
  apply list_elem_of_In, filter_In in Hc as [_ Hs]. simpl.
  pose proof (survives_positive _ _ Hpos Hs) as Harea.
  assert (c <> []) as Hne by by intros ->.
  destruct (Cv.boundingRect c) as [[[x y] w] h] eqn:Eb.
  destruct (boundingRect_spec c x y w h Hne Eb) as (Hcover & (p1 & I1 & E1) & _).
  destruct c as [|p0 l]; [done|].
  assert (0 < w /\ 0 < h) as [Hw Hh].
  { apply Forall_cons in Hcover as [? _]. lia. }
  split.
  - destruct (decide (w = 1)) as [->|]; [|lia]. exfalso. apply Harea.
    apply shoelace_thin. left. exists x.
    eapply Forall_impl; [exact Hcover|]. simpl. lia.
  - destruct (decide (h = 1)) as [->|]; [|lia]. exfalso. apply Harea.
    apply shoelace_thin. right. exists y.
    eapply Forall_impl; [exact Hcover|]. simpl. lia.
Qed.

End Boxes.

(** ** Whole runs *)

Lemma shown_app l1 l2 : shown (l1 ++ l2) = shown l1 ++ shown l2.
Proof. apply omap_app. Qed.

Lemma shown_box_events cs : shown (box_events cs) = [].
Proof. induction cs as [|c cs IH]; [done|]. exact IH. Qed.

Lemma shown_iteration a b cs image img :
  shown (EvAbsdiff a b :: box_events cs ++ [EvWrite image; EvImshow img]) = [img].
Proof.
  change (EvAbsdiff a b :: ?l) with ([EvAbsdiff a b] ++ l).
  by rewrite !shown_app, shown_box_events.
Qed.




Lemma error_names_differ : cv2_error <> AttributeError.
Proof. done. Qed.

Section Runs.
Context `{Drawing}.

Lemma body_cases minArea hp frame1 frame2 :
  (exists r, body minArea hp frame1 frame2 = Ok r) \/
  body minArea hp frame1 frame2 = Raise cv2_error.
Proof.
  destruct frame1 as [l1|], frame2 as [l2|]; try by right.
  rewrite body_eq.
  destruct (motion_contours_cases (deref hp l1) (deref hp l2)) as [[cs ->]| ->];
    cbn [bind]; [left; by eexists|by right].
Qed.

Lemma loop_cases opened : forall frames keys st,
  (exists st', loop opened frames keys st = Ok st') \/
  loop opened frames keys st = Raise cv2_error.
Proof.
  induction frames as [|f frames IH]; intros keys st; cbn [loop].
  - destruct (opened && ret st); [|left; by eexists].
    destruct (body_cases 800 (store st) (frame1 st) (frame2 st)) as [[r ->]| ->];
      cbn [bind]; [left; by eexists|by right].
  - destruct (opened && ret st); [|left; by eexists].
    destruct (body_cases 800 (store st) (frame1 st) (frame2 st)) as [[r ->]| ->];
      cbn [bind]; [|by right].
    destruct (hd (-1) keys =? 27); [left; by eexists|]. apply IH.
Qed.

(** X11. A run can fail in two ways only. [print(frame1.shape)] raises
    AttributeError exactly when the first read delivers nothing: the camera
    is not opened or has no frame. Any other failure is a cv2.error from the
    loop body, and border following never runs out of steps. A camera that
    delivers a single frame gives a run that ends at once: the loop is never
    entered and nothing is written. *)
Theorem run_fails_in_two_ways (opened : bool) (frames : list image3) (keys : list Z) :
  (run opened frames keys = Raise AttributeError <-> opened = false \/ frames = []) /\
  (forall e, run opened frames keys = Raise e -> e = AttributeError \/ e = cv2_error) /\
  run opened frames keys <> OutOfFuel /\
  (forall f, opened = true -> frames = [f] ->
     exists st, run opened frames keys = Ok st /\ trace st = []).
Proof.
  destruct opened.
  - destruct frames as [|f0 frames].
    + cbn. split; [split; auto|]. split; [intros e [= <-]; by left|].
      split; [done|]. by intros f _ [=].
    + assert (forall st, run true (f0 :: frames) keys
                = loop true (drop 1 frames) keys st ->
              (run true (f0 :: frames) keys = Raise AttributeError <->
                 true = false \/ f0 :: frames = []) /\
              (forall e, run true (f0 :: frames) keys = Raise e ->
                 e = AttributeError \/ e = cv2_error) /\
              run true (f0 :: frames) keys <> OutOfFuel) as Hloop.
      { intros st ->.
        destruct (loop_cases true (drop 1 frames) keys st) as [[st' ->]| ->].
        - split; [split; [done|by intros [|]]|]. split; [done|done].
        - split; [split; [intros [= E]; by destruct error_names_differ|by intros [|]]|].
          split; [intros e [= <-]; by right|done]. }
      destruct frames as [|f1 rest].
      * destruct (Hloop {| store := [f0]; frame1 := Some 0%nat; frame2 := None;
                           ret := false; trace := [] |} eq_refl) as (H1 & H2 & H3).
        split; [done|]. split; [done|]. split; [done|].
        intros f _ _. by eexists.
      * destruct (Hloop {| store := [f0; f1]; frame1 := Some 0%nat; frame2 := Some 1%nat;
                           ret := true; trace := [] |} eq_refl) as (H1 & H2 & H3).
        split; [done|]. split; [done|]. split; [done|]. by intros f _ [=].
  - assert (run false frames keys = Raise AttributeError) as E by by destruct frames.
    rewrite E. split; [split; auto|]. split; [intros e [= <-]; by left|].
    split; [done|]. by intros f [=].
Qed.



Lemma loop_display opened : forall rest keys st st' l1 l2 a b,
  frame1 st = Some l1 -> frame2 st = Some l2 -> l1 <> l2 ->
  store st !! l1 = Some a -> store st !! l2 = Some b ->
  loop opened rest keys st = Ok st' ->
  exists evs,
    trace st' = trace st ++ evs /\
    shown evs = (fun ab : image3 * image3 => display ab.1 ab.2) <$> absdiffs evs /\
    written evs = (fun img => resize img (1280, 720)) <$> shown evs.
Proof.
  assert (forall hp l1 l2 a b hp' evs,
            hp !! l1 = Some a -> hp !! l2 = Some b ->
            body 800 hp (Some l1) (Some l2) = Ok (hp', evs) ->
            absdiffs evs = [(a, b)] /\ shown evs = [display a b] /\
            written evs = [resize (display a b) (1280, 720)]) as Hbody.
  { intros hp l1 l2 a b hp' evs Ha Hb Eb.
    pose proof (body_store _ _ _ _ _ _ Eb) as (_ & _ & _ & cs' & Hcs' & Hd).
    apply body_Ok in Eb as (cs & Hcs & Hhp & ->).
    rewrite absdiffs_iteration, shown_iteration, written_iteration.
    rewrite Hd. unfold display, deref in *. rewrite Ha, Hb in *. simpl in *.
    by rewrite Hcs'. }
  induction rest as [|f rest IH]; intros keys st st' l1 l2 a b E1 E2 Hne Ha Hb;
    cbn [loop]; rewrite E1, E2.
  - destruct (opened && ret st);
      [|intros [= <-]; exists []; by rewrite app_nil_r].
    destruct (body 800 _ _ _) as [[hp' evs]| |] eqn:Eb; cbn [bind]; [|done..].
    intros [= <-]. cbn [trace fst snd]. exists evs. split; [done|].
    destruct (Hbody _ _ _ _ _ _ _ Ha Hb Eb) as (-> & -> & ->). done.
  - destruct (opened && ret st);
      [|intros [= <-]; exists []; by rewrite app_nil_r].
    destruct (body 800 _ _ _) as [[hp' evs]| |] eqn:Eb; cbn [bind]; [|done..].
    pose proof (body_store _ _ _ _ _ _ Eb) as (Hlen & Hother & _).
    destruct (Hbody _ _ _ _ _ _ _ Ha Hb Eb) as (Habs & Hsh & Hwr).
    cbn [fst snd]. destruct (hd (-1) keys =? 27).
    + intros [= <-]. cbn [trace]. exists evs. split; [done|].
      split; [by rewrite Habs, Hsh|by rewrite Hsh, Hwr].
    + pose proof (lookup_lt_Some _ _ _ Hb) as Hl2.
      intros Hloop.
      eapply (IH _ _ _ l2 (length hp') b f) in Hloop as (evs' & Htr & Hsh' & Hwr').
      * exists (evs ++ evs'). cbn [trace] in Htr. rewrite Htr, <- app_assoc.
        split; [done|].
        rewrite shown_app, written_app, absdiffs_app, !fmap_app.
        split; [by rewrite Habs, Hsh, Hsh'|by rewrite Hsh, Hwr, Hwr'].
      * done.
      * done.
      * lia.
      * cbn [store]. rewrite lookup_app_l by lia. rewrite Hother by done. done.
      * cbn [store]. by rewrite list_lookup_middle.
Qed.

(** X13. The video is a function of the frames the camera delivered: in
    round [k] the window shows frame [k] with the boxes of the contours
    between frame [k] and frame [k + 1], and the file receives that same
    picture resized to 1280x720. Nothing drawn in one round shows in a later
    one. *)
Theorem output_follows_the_frames (opened : bool) (frames : list image3) (keys : list Z)
    (st : state) :
  run opened frames keys = Ok st ->
  exists k : nat,
    shown (trace st)
      = (fun ab : image3 * image3 => display ab.1 ab.2) <$> take k (zip frames (drop 1 frames)) /\
    written (trace st) = (fun img => resize img (1280, 720)) <$> shown (trace st).
Proof.
  unfold run, read.
  destruct frames as [|f0 [|f1 rest]]; [done| |].
  - destruct opened; [|done]. cbn [loop andb ret]. intros [= <-]. by exists 0%nat.
  - destruct opened; [|done]. cbn [app length]. intros Hloop.
    pose proof Hloop as Hloop'.
    eapply (loop_absdiffs _ _ _ _ _ 0%nat 1%nat f0 f1) in Hloop' as [k Hk]; try done.
    eapply (loop_display _ _ _ _ _ 0%nat 1%nat f0 f1) in Hloop
      as (evs & Htr & Hsh & Hwr); try done.
    cbn [trace app] in Htr, Hk. subst evs. exists k. cbn [drop].
    by rewrite Hwr, Hsh, Hk.
Qed.

End Runs.

(** ** The further properties on concrete frames *)

Lemma small_changes_ignored_witness :
  Forall2 (Forall2 (channels_within 20)) (deref faint_pair 0%nat) (deref faint_pair 1%nat) /\
  0 < rows (deref faint_pair 0%nat) /\ 0 < cols (deref faint_pair 0%nat) /\
  motion_contours (deref faint_pair 0%nat) (deref faint_pair 1%nat) = Ok [].
Proof.
  assert (Forall2 (Forall2 (channels_within 20))
            (deref faint_pair 0%nat) (deref faint_pair 1%nat)) as Hclose.
  { repeat constructor; simpl; lia. }
  assert (0 < rows (deref faint_pair 0%nat)) as Hr by reflexivity.
  assert (0 < cols (deref faint_pair 0%nat)) as Hc by reflexivity.
  split; [exact Hclose|]. split; [exact Hr|]. split; [exact Hc|].
  exact (proj1 (proj2 (small_changes_ignored (H := Plain.drawing) 800 faint_pair
                         0%nat 1%nat Hclose Hr Hc))).
Defined.

Lemma stages_stay_in_range_witness :
  blurred [[(0, 0, 0)]] [[(20, 20, 20)]] = Ok [[20]] /\ cells_in 0 255 [[20]].
Proof.
  assert (blurred [[(0, 0, 0)]] [[(20, 20, 20)]] = Ok [[20]]) as Hb by reflexivity.
  split; [exact Hb|].
  exact (proj1 (stages_stay_in_range [[(0, 0, 0)]] [[(20, 20, 20)]] [[20]] Hb)).
Defined.

Lemma uniform_change_witness :
  rectangular (deref bright_pair 0%nat) /\
  Forall2 (Forall2 (fun p q => Cv.absdiff_px p q = (30, 30, 30)))
    (deref bright_pair 0%nat) (deref bright_pair 1%nat) /\
  exists blur thresh,
    blurred (deref bright_pair 0%nat) (deref bright_pair 1%nat) = Ok blur /\
    constant 30 blur /\
    motion_mask (deref bright_pair 0%nat) (deref bright_pair 1%nat) = Ok thresh /\
    constant (if 20 <? 30 then 255 else 0) thresh.
Proof.
  assert (rectangular (deref bright_pair 0%nat)) as Hrect.
  { repeat constructor. }
  assert (0 < rows (deref bright_pair 0%nat)) as Hr by reflexivity.
  assert (0 < cols (deref bright_pair 0%nat)) as Hc by reflexivity.
  assert (Forall2 (Forall2 (fun p q => Cv.absdiff_px p q = (30, 30, 30)))
            (deref bright_pair 0%nat) (deref bright_pair 1%nat)) as Hd.
  { repeat constructor. }
  split; [exact Hrect|]. split; [exact Hd|].
  exact (uniform_change 30 (deref bright_pair 0%nat) (deref bright_pair 1%nat)
           Hrect Hr Hc Hd).
Defined.

Lemma dilation_reaches_three_cells_witness :
  motion_mask (black 8 8) (white_square 8 8 0 0 1) = Ok spark_mask /\
  at1 spark_mask (4 + -3) (3 + -3) = 255 /\
  at1 spark_mask 4 3 = 0 /\
  at1 (Cv.dilate spark_mask 3) 4 3 = 255.
Proof.
  assert (motion_mask (black 8 8) (white_square 8 8 0 0 1) = Ok spark_mask) as Hm.
  { vm_compute. reflexivity. }
  assert (rows (black 8 8) = 8) as Er by reflexivity.
  assert (cols (black 8 8) = 8) as Ec by reflexivity.
  assert (0 <= 4 < rows (black 8 8)) as Hy by (rewrite Er; lia).
  assert (0 <= 3 < cols (black 8 8)) as Hx by (rewrite Ec; lia).
  assert (-3 <= -3 <= 3) as Hd by lia.
  assert (at1 spark_mask (4 + -3) (3 + -3) = 255) as Hsrc by reflexivity.
  split; [exact Hm|]. split; [exact Hsrc|]. split; [reflexivity|].
  exact (proj2 (dilation_reaches_three_cells (black 8 8) (white_square 8 8 0 0 1)
                  spark_mask 4 3 Hm Hy Hx)
           (ex_intro _ (-3) (ex_intro _ (-3) (conj Hd (conj Hd Hsrc))))).
Defined.

Lemma no_contour_iff_below_threshold_witness :
  blurred [[(0, 0, 0)]] [[(20, 20, 20)]] = Ok [[20]] /\
  (motion_contours [[(0, 0, 0)]] [[(20, 20, 20)]] = Ok [] <-> cells_in 0 20 [[20]]).
Proof.
  assert (blurred [[(0, 0, 0)]] [[(20, 20, 20)]] = Ok [[20]]) as Hb by reflexivity.
  split; [exact Hb|].
  exact (no_contour_iff_below_threshold [[(0, 0, 0)]] [[(20, 20, 20)]] [[20]] Hb).
Defined.

Lemma contours_lie_on_the_mask_witness :
  motion_contours [[(0, 0, 0)]] [[(30, 30, 30)]] = Ok [[(0, 0)]] /\
  exists thresh,
    motion_mask [[(0, 0, 0)]] [[(30, 30, 30)]] = Ok thresh /\
    Forall (fun c : contour =>
              c <> [] /\
              Forall (fun p => 0 <= p.1 < cols [[(0, 0, 0)]] /\ 0 <= p.2 < rows [[(0, 0, 0)]] /\
                               at1 (Cv.dilate thresh 3) p.2 p.1 = 255) c) [[(0, 0)]].
Proof.
  assert (motion_contours [[(0, 0, 0)]] [[(30, 30, 30)]] = Ok [[(0, 0)]]) as Hcs
    by reflexivity.
  split; [exact Hcs|].
  exact (contours_lie_on_the_mask [[(0, 0, 0)]] [[(30, 30, 30)]] [[(0, 0)]] Hcs).
Defined.

Lemma boundingRect_smallest_cover_witness :
  [(1, 2); (3, 1)] <> ([] : contour) /\
  Cv.boundingRect [(1, 2); (3, 1)] = (1, 1, 3, 2) /\
  Forall (fun p : point => 1 <= p.1 < 1 + 3 /\ 1 <= p.2 < 1 + 2) [(1, 2); (3, 1)].
Proof.
  assert ([(1, 2); (3, 1)] <> ([] : contour)) as Hne by discriminate.
  assert (Cv.boundingRect [(1, 2); (3, 1)] = (1, 1, 3, 2)) as Hb by reflexivity.
  split; [exact Hne|]. split; [exact Hb|].
  exact (proj1 (boundingRect_smallest_cover [(1, 2); (3, 1)] 1 1 3 2 Hne Hb)).
Defined.

Lemma rectangles_touch_the_mask_witness :
  exists hp' evs thresh,
    body (H := Plain.drawing) 100 small_scene (Some 0%nat) (Some 1%nat) = Ok (hp', evs) /\
    motion_mask (deref small_scene 0%nat) (deref small_scene 1%nat) = Ok thresh /\
    Forall (touches (Cv.dilate thresh 3)) (rectangles evs).
Proof.
  destruct (small_scene_body 100) as (hp' & evs & Hb & _).
  destruct (rectangles_touch_the_mask (H := Plain.drawing) 100 small_scene hp'
              0%nat 1%nat evs Hb) as (thresh & Hm & Ht).
  exists hp', evs, thresh. split; [exact Hb|]. split; [exact Hm|exact Ht].
Defined.

Lemma rectangles_at_least_two_wide_witness :
  exists hp' evs,
    0 < 100 /\
    body (H := Plain.drawing) 100 small_scene (Some 0%nat) (Some 1%nat) = Ok (hp', evs) /\
    Forall (fun r : rect => let '(x, y, w, h) := r in 2 <= w /\ 2 <= h) (rectangles evs).
Proof.
  destruct (small_scene_body 100) as (hp' & evs & Hb & _).
  assert (0 < 100) as Hpos by lia.
  exists hp', evs. split; [exact Hpos|]. split; [exact Hb|].
  exact (rectangles_at_least_two_wide (H := Plain.drawing) 100 small_scene hp'
           0%nat 1%nat evs Hpos Hb).
Defined.


Lemma output_follows_the_frames_witness :
  exists st (k : nat),
    run (H := Plain.drawing) true passing_object [] = Ok st /\
    shown (trace st)
      = (fun ab : image3 * image3 => display (H := Plain.drawing) ab.1 ab.2)
          <$> take k (zip passing_object (drop 1 passing_object)) /\
    written (trace st)
      = (fun img => resize (Drawing := Plain.drawing) img (1280, 720)) <$> shown (trace st).
Proof.
  destruct passing_object_run as (st & Hrun & _).
  destruct (output_follows_the_frames (H := Plain.drawing) true passing_object [] st Hrun)
    as (k & Hsh & Hwr).
  exists st, k. split; [exact Hrun|]. split; [exact Hsh|exact Hwr].
Defined.

(** ** Locality *)

Lemma tabulate_inside {A : Type} (d : A) h w (f : Z -> Z -> A) y x :
  0 <= h -> 0 <= w -> cell d (tabulate h w f) y x <> d -> 0 <= y < h /\ 0 <= x < w.
Proof.
  intros Hh Hw Hne. apply cell_inside in Hne as (Hy & r & Hr & Hx).
  rewrite rows_tabulate in Hy by done. split; [done|].
  pose proof (width_tabulate h w f) as Hall.
  eapply Forall_lookup_1 in Hall; [|exact Hr]. simpl in Hall. lia.
Qed.

Lemma cell_zip_with {A B C : Type} (f : A -> B -> C) (d1 : A) (d2 : B) (d : C)
    (m1 : list (list A)) (m2 : list (list B)) y x :
  cell d (zip_with (zip_with f) m1 m2) y x = d \/
  cell d (zip_with (zip_with f) m1 m2) y x = f (cell d1 m1 y x) (cell d2 m2 y x).
Proof.
  unfold cell. destruct ((y <? 0) || (x <? 0)); [by left|].
  rewrite lookup_zip_with.
  destruct (m1 !! Z.to_nat y) as [r1|]; simpl; [|by left].
  destruct (m2 !! Z.to_nat y) as [r2|]; simpl; [|by left].
  rewrite lookup_zip_with.
  destruct (r1 !! Z.to_nat x) as [a|]; simpl; [|by left].
  destruct (r2 !! Z.to_nat x) as [b|]; simpl; [by right|by left].
Qed.

(** The reflected index of a tap is no further from the cell than the tap. *)
Lemma borderInterpolate_near x j len :
  1 <= len -> 0 <= x < len -> -2 <= j <= 2 ->
  x - 2 <= Cv.borderInterpolate (x + j) len <= x + 2.
Proof.
  intros Hlen Hx Hj. unfold Cv.borderInterpolate, Cv.reflect101.
  destruct (Z.eqb_spec len 1); [lia|].
  repeat match goal with
  | |- context [?a <? ?b] => destruct (Z.ltb_spec a b)
  | |- context [?a <=? ?b] => destruct (Z.leb_spec a b)
  end; lia.
Qed.

Lemma hline_local (m : image1) y x :
  (forall x', x - 2 <= x' <= x + 2 -> at1 m y x' = 0) -> at1 (Cv.hline m) y x = 0.
Proof.
  intros Hz. destruct (decide (at1 (Cv.hline m) y x = 0)) as [|Hne]; [done|].
  apply tabulate_inside in Hne as [Hy Hx]; [|apply rows_nonneg|apply cols_nonneg].
  unfold at1 at 1, Cv.hline. rewrite cell_tabulate by done. cbv beta zeta.
  rewrite !Hz by (apply borderInterpolate_near; lia). done.
Qed.

Lemma vline_local (m : image1) y x :
  (forall y', y - 2 <= y' <= y + 2 -> at1 m y' x = 0) -> at1 (Cv.vline m) y x = 0.
Proof.
  intros Hz. destruct (decide (at1 (Cv.vline m) y x = 0)) as [|Hne]; [done|].
  apply tabulate_inside in Hne as [Hy Hx]; [|apply rows_nonneg|apply cols_nonneg].
  unfold at1 at 1, Cv.vline. rewrite cell_tabulate by done. cbv beta zeta.
  rewrite !Hz by (apply borderInterpolate_near; lia). done.
Qed.

(** A cell of the blur is 0 where the 5x5 window around it is. *)
Lemma GaussianBlur_local (m : image1) y x :
  (forall y' x', y - 2 <= y' <= y + 2 -> x - 2 <= x' <= x + 2 -> at1 m y' x' = 0) ->
  at1 (Cv.GaussianBlur m) y x = 0.
Proof.
  intros Hz. unfold Cv.GaussianBlur. apply vline_local. intros y' Hy'.
  apply hline_local. intros x' Hx'. by apply Hz.
Qed.

Lemma gray_unchanged src1 src2 blur :
  blurred src1 src2 = Ok blur ->
  exists gray,
    blur = Cv.GaussianBlur gray /\
    forall y x, cell (0, 0, 0) src1 y x = cell (0, 0, 0) src2 y x -> at1 gray y x = 0.
Proof.
  unfold blurred, Cv.absdiff. destruct (_ && _); cbn [bind]; [|done].
  unfold Cv.cvtColor. destruct (_ || _); cbn [bind]; [done|]. intros [= <-].
  eexists. split; [done|]. intros y x E. unfold at1.
  pose proof (cell_fmap Cv.bgr2gray (0, 0, 0)
                (zip_with (zip_with Cv.absdiff_px) src1 src2) y x) as Ec.
  change (Cv.bgr2gray (0, 0, 0)) with 0 in Ec. rewrite Ec.
  destruct (cell_zip_with Cv.absdiff_px (0, 0, 0) (0, 0, 0) (0, 0, 0) src1 src2 y x)
    as [-> | ->]; [done|].
  by rewrite E, absdiff_px_self.
Qed.

(** X14. Detection is local: a cell of the dilated mask is 0 when the two
    frames agree on every cell at most five rows and five columns away,
    two for the reach of the 5x5 blur and three for the three dilations.
    With X9, every side of every rectangle is within five cells of a pixel
    that changed. *)
Theorem motion_is_local (src1 src2 : image3) (thresh : image1) (y x : Z) :
  motion_mask src1 src2 = Ok thresh ->
  (forall y' x', y - 5 <= y' <= y + 5 -> x - 5 <= x' <= x + 5 ->
     cell (0, 0, 0) src1 y' x' = cell (0, 0, 0) src2 y' x') ->
  at1 (Cv.dilate thresh 3) y x = 0.
Proof.
  intros Hm Hsame. apply motion_mask_Ok in Hm as (blur & Hb & ->).
  apply gray_unchanged in Hb as (gray & -> & Hgray).
  destruct (decide (at1 (Cv.dilate (Cv.threshold (Cv.GaussianBlur gray) 20 255).2 3) y x = 0))
    as [|Hne]; [done|].
  destruct (dilate_from _ _ _ _ Hne) as (dy & dx & Hdy & Hdx & E).
  rewrite <- E in Hne. exfalso. apply Hne.
  rewrite at1_threshold by lia.
  rewrite GaussianBlur_local; [done|].
  intros y' x' Hy' Hx'. apply Hgray, Hsame; lia.
Qed.

Lemma tabulate_outside {A : Type} `{EqDecision A} (d : A) h w (f : Z -> Z -> A) y x :
  0 <= h -> 0 <= w -> ~ (0 <= y < h /\ 0 <= x < w) -> cell d (tabulate h w f) y x = d.
Proof.
  intros Hh Hw Hout. destruct (decide (cell d (tabulate h w f) y x = d)) as [|Hne]; [done|].
  by apply tabulate_inside in Hne.
Qed.

(** Outside the square the frame is black. *)
Lemma white_square_outside h w x0 y0 side y x :
  0 <= h -> 0 <= w -> ~ (x0 <= x < x0 + side /\ y0 <= y < y0 + side) ->
  cell (0, 0, 0) (white_square h w x0 y0 side) y x = cell (0, 0, 0) (black h w) y x.
Proof.
  intros Hh Hw Hout. unfold white_square, black.
  destruct (decide (0 <= y < h /\ 0 <= x < w)) as [[Hy Hx]|Hno].
  - rewrite !cell_tabulate by done.
    destruct (Z.leb_spec x0 x), (Z.ltb_spec x (x0 + side)),
             (Z.leb_spec y0 y), (Z.ltb_spec y (y0 + side)); simpl; try done.
    exfalso. apply Hout. lia.
  - by rewrite !tabulate_outside.
Qed.

Lemma motion_is_local_witness :
  motion_mask (black 8 8) (white_square 8 8 0 0 1) = Ok spark_mask /\
  cell (0, 0, 0) (black 8 8) 0 0 <> cell (0, 0, 0) (white_square 8 8 0 0 1) 0 0 /\
  at1 spark_mask 0 0 = 255 /\
  (forall y' x', 6 - 5 <= y' <= 6 + 5 -> 6 - 5 <= x' <= 6 + 5 ->
     cell (0, 0, 0) (black 8 8) y' x' = cell (0, 0, 0) (white_square 8 8 0 0 1) y' x') /\
  at1 (Cv.dilate spark_mask 3) 6 6 = 0.
Proof.
  assert (motion_mask (black 8 8) (white_square 8 8 0 0 1) = Ok spark_mask) as Hm.
  { vm_compute. reflexivity. }
  assert (forall y' x', 6 - 5 <= y' <= 6 + 5 -> 6 - 5 <= x' <= 6 + 5 ->
            cell (0, 0, 0) (black 8 8) y' x'
            = cell (0, 0, 0) (white_square 8 8 0 0 1) y' x') as Hsame.
  { intros y' x' Hy Hx. symmetry. apply white_square_outside; lia. }
  split; [exact Hm|]. split; [discriminate|]. split; [reflexivity|].
  split; [exact Hsame|].
  exact (motion_is_local (black 8 8) (white_square 8 8 0 0 1) spark_mask 6 6 Hm Hsame).
Defined.
